(** * Path warping between two boundary curves

    A shallow embedding of the geometry core of the sketch editor:
    - [PathHelper] and [PaperHelpers]: the curve sampler ([tracePath],
      [tracePathAsPoints], [traceCompoundPath]) and the dual-boundary
      projector ([dualBoundsPathProjection]);
    - [DualBoundsPathWarp]: the composite scene node that owns a source
      outline, two boundary paths, the warped outline and the background
      outline.

    TypeScript's [number] is kept abstract: the program is translated once
    over an arbitrary structure [Number F] offering the operations the code
    uses ([+], [-], [*], [/], [Math.min], integer literals).  Statements that
    depend on nothing but the control flow hold for every such structure.
    Statements that depend on algebraic or order laws name the laws they use
    ([ExactNumber], [OrderedNumber]); the canonical rationals [Qc] satisfy
    both and are used to evaluate the program on concrete inputs.  The
    binary64 numbers the program runs on are a [Number] structure too
    ([float_number]); they round, so they satisfy no [ExactNumber].

    The drawing library is a collaborator, not part of the program: what the
    code asks of it (arc length, point at a distance, bounding box, segment
    from a point, orientation) is the interface [Paper].  A path has no
    clockwise flag of its own: the library reads [clockwise] off the
    geometry, and setting it reverses the path when the reading differs.
    [console.warn] output is not modelled. *)

From Stdlib Require Import ZArith QArith Qcanon Qround Field Lqa.
From Stdlib Require PrimFloat FloatOps SpecFloat.
From stdpp Require Import base numbers list strings gmap.

Set Default Proof Using "Type*".

(** ** Numbers *)

Class Number (F : Type) := {
  num_of_Z : Z → F;            (* an integer-valued number, e.g. a literal *)
  num_add : F → F → F;
  num_sub : F → F → F;
  num_mul : F → F → F;
  num_div : F → F → F;
  Math_min : F → F → F;
  num_le : F → F → Prop;
}.

Declare Scope num_scope.
Delimit Scope num_scope with num.
Infix "+" := num_add : num_scope.
Infix "-" := num_sub : num_scope.
Infix "*" := num_mul : num_scope.
Infix "/" := num_div : num_scope.
Infix "≤" := num_le : num_scope.

(** Laws of exact arithmetic: a field in which the integers embed
    additively and [2] is invertible.  Rationals and reals satisfy them;
    binary64 numbers do so only up to rounding. *)
Class ExactNumber (F : Type) `{Number F} : Prop := {
  exact_field :
    field_theory (num_of_Z 0) (num_of_Z 1) num_add num_mul num_sub
      (λ x, num_sub (num_of_Z 0) x) num_div (λ x, num_div (num_of_Z 1) x) eq;
  exact_of_Z_add a b : num_of_Z (a + b) = (num_of_Z a + num_of_Z b)%num;
  exact_two_nonzero : num_of_Z 2 ≠ num_of_Z 0;
}.

(** Laws of the order and of [Math.min]. *)
Class OrderedNumber (F : Type) `{Number F} : Prop := {
  ord_refl x : (x ≤ x)%num;
  ord_trans x y z : (x ≤ y)%num → (y ≤ z)%num → (x ≤ z)%num;
  ord_total x y : (x ≤ y)%num ∨ (y ≤ x)%num;
  ord_min_l x y : (x ≤ y)%num → Math_min x y = x;
  ord_min_r x y : (y ≤ x)%num → Math_min x y = y;
  ord_add_nonneg x y :
    (num_of_Z 0 ≤ x)%num → (num_of_Z 0 ≤ y)%num → (num_of_Z 0 ≤ x + y)%num;
  ord_div_nonneg x (n : Z) :
    (num_of_Z 0 ≤ x)%num → (0 < n)%Z → (num_of_Z 0 ≤ x / num_of_Z n)%num;
}.

(** ** paper.Point *)

Record Point (F : Type) := mkPoint { x : F; y : F }.
Arguments mkPoint {F} _ _.
Arguments x {F} _.
Arguments y {F} _.

Module Point.
Section ops.
Context {F : Type} `{Number F}.
Local Open Scope num_scope.

Definition add (p q : Point F) : Point F := mkPoint (x p + x q) (y p + y q).
Definition subtract (p q : Point F) : Point F := mkPoint (x p - x q) (y p - y q).
Definition multiply (p : Point F) (s : F) : Point F := mkPoint (x p * s) (y p * s).
Definition divide (p : Point F) (s : F) : Point F := mkPoint (x p / s) (y p / s).
End ops.
End Point.

(** ** The Curvelike interface: an arc length and a point query.
    [getPointAt] answers [None] where the library returns [null]. *)

Class Curvelike (F C : Type) := {
  curve_length : C → F;
  getPointAt : C → F → option (Point F);
}.

(** A curve given directly by its length and its point query. *)
Record FunCurve (F : Type) := mkFunCurve {
  fc_length : F;
  fc_pointAt : F → option (Point F);
}.
Arguments mkFunCurve {F} _ _.
Arguments fc_length {F} _.
Arguments fc_pointAt {F} _ _.

#[export] Instance FunCurve_curvelike {F} : Curvelike F (FunCurve F) :=
  {| curve_length := fc_length; getPointAt := fc_pointAt |}.

(** ** paper.Segment, paper.Path, paper.CompoundPath *)

Record Segment (F : Type) := mkSegment {
  point : Point F;
  handleIn : Point F;
  handleOut : Point F;
}.
Arguments mkSegment {F} _ _ _.
Arguments point {F} _.
Arguments handleIn {F} _.
Arguments handleOut {F} _.

(** The attributes the program sets on an item besides its geometry. *)
Record SketchItemStyle := mkStyle {
  strokeColor : option string;
  backgroundColor : option string;
}.

Record Path (F : Type) := mkPath {
  segments : list (Segment F);
  closed : bool;
  visible : bool;
  fillColor : option string;
  opacity : F;
}.
Arguments mkPath {F} _ _ _ _ _.
Arguments segments {F} _.
Arguments closed {F} _.
Arguments visible {F} _.
Arguments fillColor {F} _.
Arguments opacity {F} _.

Record CompoundPath (F : Type) := mkCompoundPath {
  children : list (Path F);
  cp_visible : bool;
  cp_style : option SketchItemStyle;
  cp_fillColor : option string;
}.
Arguments mkCompoundPath {F} _ _ _ _.
Arguments children {F} _.
Arguments cp_visible {F} _.
Arguments cp_style {F} _.
Arguments cp_fillColor {F} _.

Record Rectangle (F : Type) := mkRectangle {
  topLeft : Point F;
  width : F;
  height : F;
}.
Arguments mkRectangle {F} _ _ _.
Arguments topLeft {F} _.
Arguments width {F} _.
Arguments height {F} _.

(** What the program asks of the drawing library.  [Segment_read] makes a
    segment of a point; of [null] and of an empty description it makes the
    segment [Segment_read None].  [Path_orientation segments closed] is
    [isClockwise()] of a path (its area is not negative) and
    [CompoundPath_orientation] that of a compound path, read off the
    children. *)
Class Paper (F : Type) := {
  Path_length : Path F → F;
  Path_getPointAt : Path F → F → option (Point F);
  Segment_read : option (Point F) → Segment F;
  Path_orientation : list (Segment F) → bool → bool;
  CompoundPath_orientation : list (Path F) → bool;
  CompoundPath_bounds : CompoundPath F → Rectangle F;
}.

#[export] Instance Path_curvelike {F} `{Paper F} : Curvelike F (Path F) :=
  {| curve_length := Path_length; getPointAt := Path_getPointAt |}.

(** paper.Path.reverse: the segments in opposite order, each with its two
    handles exchanged. *)
Definition Segment_reversed {F} (s : Segment F) : Segment F :=
  mkSegment (point s) (handleOut s) (handleIn s).

Definition Path_reverse {F} (p : Path F) : Path F :=
  mkPath (reverse (Segment_reversed <$> segments p)) (closed p)
         (visible p) (fillColor p) (opacity p).

(** [path.clockwise] and [path.clockwise = value]:
    [[
      isClockwise: function() { return this.getArea() >= 0; },
      setClockwise: function(clockwise) {
        if (this.isClockwise() != (clockwise = !!clockwise)) this.reverse();
      }
    ]] *)
Definition clockwise {F} `{Paper F} (p : Path F) : bool :=
  Path_orientation (segments p) (closed p).

Definition Path_setClockwise {F} `{Paper F} (value : bool) (p : Path F)
    : Path F :=
  if eqb (clockwise p) value then p else Path_reverse p.

(** [new paper.Path({ segments, closed, clockwise })]: visible, unfilled,
    opaque; the properties are set in the order written, [clockwise], where
    given, last. *)
Definition Path_new {F} `{Number F} `{Paper F} (segs : list (Segment F))
    (closed : bool) (clockwise : option bool) : Path F :=
  let p := mkPath segs closed true None (num_of_Z 1) in
  match clockwise with
  | Some value => Path_setClockwise value p
  | None => p
  end.

(** [new paper.Path(array)]: an array whose first entry is no object is
    taken for the description of one segment, so the empty array makes one
    segment, the one the library reads from nothing. *)
Definition Path_of_array {F} `{Number F} `{Paper F} (segs : list (Segment F))
    : Path F :=
  match segs with
  | [] => Path_new [Segment_read None] false None
  | _ => Path_new segs false None
  end.

(** The same for a compound path; [reverse] reverses every child. *)
Definition cp_clockwise {F} `{Paper F} (c : CompoundPath F) : bool :=
  CompoundPath_orientation (children c).

Definition CompoundPath_reverse {F} (c : CompoundPath F) : CompoundPath F :=
  mkCompoundPath (Path_reverse <$> children c) (cp_visible c) (cp_style c)
                 (cp_fillColor c).

Definition CompoundPath_setClockwise {F} `{Paper F} (value : bool)
    (c : CompoundPath F) : CompoundPath F :=
  if eqb (cp_clockwise c) value then c else CompoundPath_reverse c.

(** [new paper.CompoundPath({ children, clockwise, fillColor })] *)
Definition CompoundPath_new {F} `{Paper F} (paths : list (Path F))
    (value : bool) (fill : option string) : CompoundPath F :=
  let c := mkCompoundPath paths true None None in
  let c := CompoundPath_setClockwise value c in
  mkCompoundPath (children c) (cp_visible c) (cp_style c) fill.

Definition Rectangle_topRight {F} `{Number F} (r : Rectangle F) : Point F :=
  mkPoint (x (topLeft r) + width r)%num (y (topLeft r)).
Definition Rectangle_bottomLeft {F} `{Number F} (r : Rectangle F) : Point F :=
  mkPoint (x (topLeft r)) (y (topLeft r) + height r)%num.
Definition Rectangle_bottomRight {F} `{Number F} (r : Rectangle F) : Point F :=
  mkPoint (x (topLeft r) + width r)%num (y (topLeft r) + height r)%num.

(** paper.PathItem: a simple path or a compound path ([className]). *)
Inductive PathItem (F : Type) :=
  | PathItem_Path (p : Path F)
  | PathItem_CompoundPath (c : CompoundPath F).
Arguments PathItem_Path {F} _.
Arguments PathItem_CompoundPath {F} _.

(** ** The sampling loop

    [[
      let i = 0
      let offset = 0
      while (i++ < numPoints) {
        let point = path.getPointAt(Math.min(offset, pathLength))
        points.push(point)
        offset += offsetIncr
      }
    ]]
    [numPoints] is an integer; the loop state is [(points, i, offset)].  The
    loop is run with fuel: [None] means the fuel ran out before the guard
    failed. *)
Section sampling_loop.
Context {F C : Type} `{Number F} `{Curvelike F C}.
Local Open Scope num_scope.

Fixpoint trace_while (fuel : nat) (path : C) (numPoints : Z)
    (pathLength offsetIncr : F)
    (points : list (option (Point F))) (i : Z) (offset : F)
    : option (list (option (Point F))) :=
  match fuel with
  | O => None
  | S fuel' =>
      if (i <? numPoints)%Z then
        let point := getPointAt path (Math_min offset pathLength) in
        trace_while fuel' path numPoints pathLength offsetIncr
          (points ++ [point]) (i + 1)%Z (offset + offsetIncr)
      else Some points
  end.

(** Enough fuel for [numPoints] rounds and the final test of the guard. *)
Definition trace_fuel (numPoints : Z) : nat := S (Z.to_nat numPoints).

Definition trace_points (path : C) (numPoints : Z) : list (option (Point F)) :=
  let pathLength := curve_length path in
  let offsetIncr := pathLength / num_of_Z numPoints in
  default [] (trace_while (trace_fuel numPoints) path numPoints
                pathLength offsetIncr [] 0%Z (num_of_Z 0)).

(** The distances handed to [getPointAt], in the order of the calls: the
    same loop, recording the argument instead of the answer. *)
Fixpoint trace_queries (fuel : nat) (numPoints : Z)
    (pathLength offsetIncr : F) (i : Z) (offset : F) : list F :=
  match fuel with
  | O => []
  | S fuel' =>
      if (i <? numPoints)%Z then
        Math_min offset pathLength ::
        trace_queries fuel' numPoints pathLength offsetIncr
          (i + 1)%Z (offset + offsetIncr)
      else []
  end.

Definition sampler_queries (pathLength : F) (numPoints : Z) : list F :=
  trace_queries (trace_fuel numPoints) numPoints pathLength
    (pathLength / num_of_Z numPoints) 0%Z (num_of_Z 0).

(** The running offset after [k] rounds. *)
Definition offset_after (offsetIncr : F) (k : nat) (offset : F) : F :=
  Nat.iter k (λ o, o + offsetIncr) offset.
End sampling_loop.

(** ** PathHelper (the earlier helper class) *)
Module PathHelper.
Section PathHelper.
Context {F : Type} `{Number F} `{Paper F}.
Local Open Scope num_scope.

(** [new paper.Path(points)]: an open path of the points. *)
Definition tracePath (path : Path F) (numPoints : Z) : Path F :=
  let points := trace_points path numPoints in
  Path_of_array (Segment_read <$> points).

Definition traceCompoundPath (path : CompoundPath F) (pointsPerPath : Z)
    : option (CompoundPath F) :=
  if decide (length (children path) = 0) then None
  else
    let paths := (λ p, tracePath p pointsPerPath) <$> children path in
    Some (CompoundPath_new paths (cp_clockwise path) (Some "lightgray")).

Definition tracePathItem (path : PathItem F) (pointsPerPath : Z)
    : option (PathItem F) :=
  match path with
  | PathItem_CompoundPath c =>
      PathItem_CompoundPath <$> traceCompoundPath c pointsPerPath
  | PathItem_Path p => Some (PathItem_Path (tracePath p pointsPerPath))
  end.
End PathHelper.
End PathHelper.

(** ** PaperHelpers *)
Module PaperHelpers.
Section sampler.
Context {F : Type} `{Number F} `{Paper F}.
Local Open Scope num_scope.

Definition tracePathAsPoints (path : Path F) (numPoints : Z)
    : list (option (Point F)) :=
  trace_points path numPoints.

Definition tracePath (path : Path F) (numPoints : Z) : Path F :=
  let points := tracePathAsPoints path numPoints in
  Path_new (Segment_read <$> points) true (Some (clockwise path)).

Definition traceCompoundPath (path : CompoundPath F) (pointsPerPath : Z)
    : option (CompoundPath F) :=
  if decide (length (children path) = 0) then None
  else
    let paths := (λ p, tracePath p pointsPerPath) <$> children path in
    Some (CompoundPath_new paths (cp_clockwise path) None).

Definition tracePathItem (path : PathItem F) (pointsPerPath : Z)
    : option (PathItem F) :=
  match path with
  | PathItem_CompoundPath c =>
      PathItem_CompoundPath <$> traceCompoundPath c pointsPerPath
  | PathItem_Path p => Some (PathItem_Path (tracePath p pointsPerPath))
  end.
End sampler.

Section projector.
Context {F C : Type} `{Number F} `{Curvelike F C}.
Local Open Scope num_scope.

Definition dualBoundsPathProjection (topPath bottomPath : C)
    : Point F → option (Point F) :=
  let topPathLength := curve_length topPath in
  let bottomPathLength := curve_length bottomPath in
  λ unitPoint,
    let topPoint := getPointAt topPath (x unitPoint * topPathLength) in
    let bottomPoint := getPointAt bottomPath (x unitPoint * bottomPathLength) in
    match topPoint, bottomPoint with
    | Some tp, Some bp =>
        Some (Point.add tp (Point.multiply (Point.subtract bp tp) (y unitPoint)))
    | _, _ => topPoint
    end.

(** [b.subtract(a).divide(2).add(a)] *)
Definition midpoint (a b : Point F) : Point F :=
  Point.add (Point.divide (Point.subtract b a) (num_of_Z 2)) a.

(** The projection as the specification words its formula: the lower
    boundary is queried at [v * lowerLength].  Compared with
    [dualBoundsPathProjection] in the properties below. *)
Definition projection_as_specified (upper lower : C) (unitPoint : Point F)
    : option (Point F) :=
  let u := x unitPoint in
  let v := y unitPoint in
  let topPoint := getPointAt upper (u * curve_length upper) in
  let bottomPoint := getPointAt lower (v * curve_length lower) in
  match topPoint, bottomPoint with
  | Some tp, Some bp =>
      Some (Point.add tp (Point.multiply (Point.subtract bp tp) v))
  | _, _ => topPoint
  end.
End projector.
End PaperHelpers.

(** ** PaperNotify.ChangeFlag: the bits of a change notification.  The
    enumeration's values are a parameter of the development. *)
Class ChangeFlag := {
  SEGMENTS : Z;
  GEOMETRY : Z;
  ATTRIBUTE : Z;
}.

(** [flags & bit] read as a condition. *)
Definition has_flag (flags bit : Z) : bool := negb (Z.land flags bit =? 0)%Z.

(** Modelled from the spec: [PathTransform], whose [transformPoint] applies
    the point transform it was built with ("transforms each through the
    coordinate transform"). *)
Record PathTransform (F : Type) := mkPathTransform {
  pointTransform : option (Point F) → option (Point F);
}.
Arguments mkPathTransform {F} _.
Arguments pointTransform {F} _ _.

Definition transformPoint {F} (t : PathTransform F) (p : option (Point F))
    : option (Point F) :=
  pointTransform t p.

(** Modelled from the spec: [StretchPath], the boundary editing surface, "a
    thin stateful wrapper around an editable curve" built from its segments:
    an open path. *)
Definition StretchPath {F} `{Number F} `{Paper F} (segs : list (Segment F))
    : Path F :=
  Path_new segs false None.

(** ** The object store

    Compound paths handed to and obtained from the composite are objects: the
    store maps a reference to the object's current value.  A reference absent
    from the store stands for [null]. *)
Abbreviation ref := positive.
Abbreviation Store F := (gmap positive (CompoundPath F)).

(** [item.clone()]: a new object with the same value. *)
Definition CompoundPath_clone {F} (σ : Store F) (r : ref)
    : option (ref * Store F) :=
  c ← σ !! r;
  let r' := fresh (dom σ) in
  Some (r', <[r' := c]> σ).

(** ** DualBoundsPathWarp *)
Module DualBoundsPathWarp.

Record t (F : Type) := mk {
  _source : ref;
  _upper : Path F;
  _lower : Path F;
  _warped : CompoundPath F;
  _outline : Path F;
  _customStyle : SketchItemStyle;
  selected : bool;
  (* the flags of the notifications the group has emitted, oldest first *)
  emitted : list Z;
}.
Arguments mk {F} _ _ _ _ _ _ _ _.
Arguments _source {F} _.
Arguments _upper {F} _.
Arguments _lower {F} _.
Arguments _warped {F} _.
Arguments _outline {F} _.
Arguments _customStyle {F} _.
Arguments selected {F} _.
Arguments emitted {F} _.

Definition POINTS_PER_PATH : Z := 200.

Section methods.
Context {F : Type} `{Number F} `{Paper F} `{ChangeFlag}.
Local Open Scope num_scope.

Definition set_warped (w : CompoundPath F) (s : t F) : t F :=
  mk (_source s) (_upper s) (_lower s) w (_outline s) (_customStyle s)
     (selected s) (emitted s).
Definition set_outline (o : Path F) (s : t F) : t F :=
  mk (_source s) (_upper s) (_lower s) (_warped s) o (_customStyle s)
     (selected s) (emitted s).
Definition set_bounds (u l : Path F) (s : t F) : t F :=
  mk (_source s) u l (_warped s) (_outline s) (_customStyle s)
     (selected s) (emitted s).

(** The coordinate transform of [updateWarped]. *)
Definition warpPoint (source : CompoundPath F) (upper lower : Path F)
    (point : option (Point F)) : option (Point F) :=
  let orthOrigin := topLeft (CompoundPath_bounds source) in
  let orthWidth := width (CompoundPath_bounds source) in
  let orthHeight := height (CompoundPath_bounds source) in
  let projection := PaperHelpers.dualBoundsPathProjection upper lower in
  match point with
  | None => point
  | Some point =>
      let relative := Point.subtract point orthOrigin in
      let unit := mkPoint (x relative / orthWidth) (y relative / orthHeight) in
      let projected := projection unit in
      projected
  end.

(** One source contour, traced and warped. *)
Definition warpPath (source : CompoundPath F) (upper lower : Path F)
    (path : Path F) : Path F :=
  let transform := mkPathTransform (warpPoint source upper lower) in
  let xPoints :=
    (λ p, transformPoint transform p) <$>
      PaperHelpers.tracePathAsPoints path POINTS_PER_PATH in
  Path_new (Segment_read <$> xPoints) true (Some (clockwise path)).

(** [None]: the source is [null] and reading its bounds throws. *)
Definition updateWarped (σ : Store F) (s : t F) : option (t F) :=
  source ← σ !! _source s;
  let newPaths := warpPath source (_upper s) (_lower s) <$> children source in
  (* removeChildren(); addChildren(newPaths) *)
  Some (set_warped
          (mkCompoundPath newPaths (cp_visible (_warped s))
             (cp_style (_warped s)) (cp_fillColor (_warped s)))
          s).

(** [new paper.Path(this._lower.segments)] is a path of its own, built
    from the array of the lower boundary's segments. *)
Definition updateOutlineShape (s : t F) : t F :=
  let lower := Path_of_array (segments (_lower s)) in
  let lower := Path_reverse lower in
  let o := _outline s in
  set_outline
    (mkPath (segments (_upper s) ++ segments lower) (closed o)
            (visible o) (fillColor o) (opacity o))
    s.

(** The observer the group registers on itself.  The library's own
    notification for a change of visibility carries no [SEGMENTS] bit, so
    [boundsWatch] has nothing to do on it. *)
Definition groupWatch (flags : Z) (s : t F) : t F :=
  if has_flag flags ATTRIBUTE then
    if negb (eqb (visible (_upper s)) (selected s)) then
      let u := _upper s in
      let l := _lower s in
      set_bounds
        (mkPath (segments u) (closed u) (selected s)
                (fillColor u) (opacity u))
        (mkPath (segments l) (closed l) (selected s)
                (fillColor l) (opacity l))
        s
    else s
  else s.

(** [this._changed(flags)]: the notification goes out and the group's own
    observer runs. *)
Definition _changed (flags : Z) (s : t F) : t F :=
  let s := mk (_source s) (_upper s) (_lower s) (_warped s) (_outline s)
              (_customStyle s) (selected s) (emitted s ++ [flags]) in
  groupWatch flags s.

(** The observer registered on both boundaries; [Some s] unchanged when the
    flags do not carry [SEGMENTS]. *)
Definition boundsWatch (σ : Store F) (flags : Z) (s : t F) : option (t F) :=
  if has_flag flags SEGMENTS then
    let s := updateOutlineShape s in
    s ← updateWarped σ s;
    Some (_changed GEOMETRY s)
  else Some s.

(** [get upper], [get lower] *)
Definition upper (s : t F) : Path F := _upper s.
Definition lower (s : t F) : Path F := _lower s.

(** [get source]: the clone and the store that now holds it. *)
Definition source (σ : Store F) (s : t F) : option (ref * Store F) :=
  CompoundPath_clone σ (_source s).

(** [set source(value)] *)
Definition set_source (σ : Store F) (value : ref) (s : t F) : option (t F) :=
  let s := mk value (_upper s) (_lower s) (_warped s) (_outline s)
              (_customStyle s) (selected s) (emitted s) in
  updateWarped σ s.

(** [get customStyle], [set customStyle(value)] *)
Definition customStyle (s : t F) : SketchItemStyle := _customStyle s.

Definition truthy (c : option string) : bool :=
  match c with
  | Some c => negb (String.eqb c "")
  | None => false
  end.

Definition set_customStyle (value : SketchItemStyle) (s : t F) : t F :=
  let w := _warped s in
  let w := mkCompoundPath (children w) (cp_visible w)
                          (Some value) (cp_fillColor w) in
  let o := _outline s in
  let o :=
    if truthy (backgroundColor value) then
      mkPath (segments o) (closed o) (visible o)
             (backgroundColor value) (num_of_Z 1)
    else
      mkPath (segments o) (closed o) (visible o)
             (Some "white") (num_of_Z 0) in
  mk (_source s) (_upper s) (_lower s) w o value (selected s) (emitted s).

(** The constructor.  [bounds] and [customStyle] are optional.  A new group
    is not selected.  [None]: [source] is [null]. *)
Definition new (σ : Store F) (source : ref)
    (bounds : option (list (Segment F) * list (Segment F)))
    (customStyle : option SketchItemStyle) : option (Store F * t F) :=
  src ← σ !! source;
  (* this._source.visible = false *)
  let src := mkCompoundPath (children src) false
                            (cp_style src) (cp_fillColor src) in
  let σ := <[source := src]> σ in
  let '(upper, lower) :=
    match bounds with
    | Some (upper, lower) => (StretchPath upper, StretchPath lower)
    | None =>
        let b := CompoundPath_bounds src in
        (StretchPath [Segment_read (Some (topLeft b));
                      Segment_read (Some (Rectangle_topRight b))],
         StretchPath [Segment_read (Some (Rectangle_bottomLeft b));
                      Segment_read (Some (Rectangle_bottomRight b))])
    end in
  let selected := false in
  let upper := mkPath (segments upper) (closed upper)
                      selected (fillColor upper) (opacity upper) in
  let lower := mkPath (segments lower) (closed lower)
                      selected (fillColor lower) (opacity lower) in
  (* new paper.Path({closed: true}) *)
  let outline := Path_new [] true None in
  (* new paper.CompoundPath(source.pathData): the geometry of the source;
     updateWarped replaces the children at once *)
  let warped := mkCompoundPath (children src) true None None in
  let s := mk source upper lower warped outline
              (mkStyle None None) selected [] in
  let s := updateOutlineShape s in
  s ← updateWarped σ s;
  let s :=
    set_customStyle
      (default (mkStyle (Some "lightgray") None) customStyle) s in
  Some (σ, s).

(** *** The composite in use

    Modelled from the spec: [observe], the change-notification subscription
    of a boundary editing surface, "fires with a flag indicating which
    aspect changed".  Both boundaries carry [boundsWatch]. *)
Inductive Boundary := Upper | Lower.

Definition boundaryChanged (b : Boundary) (σ : Store F) (flags : Z) (s : t F)
    : option (t F) :=
  match b with
  | Upper => boundsWatch σ flags s
  | Lower => boundsWatch σ flags s
  end.

(** The user edits a boundary in place. *)
Definition editBoundary (b : Boundary) (segs : list (Segment F)) (s : t F) : t F :=
  let u := _upper s in
  let l := _lower s in
  match b with
  | Upper =>
      set_bounds (mkPath segs (closed u) (visible u)
                         (fillColor u) (opacity u)) l s
  | Lower =>
      set_bounds u (mkPath segs (closed l) (visible l)
                           (fillColor l) (opacity l)) s
  end.

Definition set_selected (b : bool) (s : t F) : t F :=
  mk (_source s) (_upper s) (_lower s) (_warped s) (_outline s)
     (_customStyle s) b (emitted s).

(** What can happen to a composite and the store between construction and
    disposal.  Objects of the store are updated or added, never dropped. *)
Inductive step : Store F * t F → Store F * t F → Prop :=
  | step_edit σ s b segs :
      step (σ, s) (σ, editBoundary b segs s)
  | step_notify σ s b flags s' :
      boundaryChanged b σ flags s = Some s' →
      step (σ, s) (σ, s')
  | step_set_source σ s value s' :
      set_source σ value s = Some s' →
      step (σ, s) (σ, s')
  | step_get_source σ s r σ' :
      source σ s = Some (r, σ') →
      step (σ, s) (σ', s)
  | step_set_customStyle σ s value :
      step (σ, s) (σ, set_customStyle value s)
  | step_select σ s b flags :
      step (σ, s) (σ, _changed flags (set_selected b s))
  | step_store σ s r c :
      step (σ, s) (<[r := c]> σ, s).

Inductive reachable : Store F * t F → Prop :=
  | reachable_new σ source bounds style cfg :
      new σ source bounds style = Some cfg →
      reachable cfg
  | reachable_step cfg cfg' :
      reachable cfg → step cfg cfg' → reachable cfg'.


(** [warped] is the full warp of [source] between [upper] and [lower]: one
    closed contour per source contour, in order, whose segments are the
    [POINTS_PER_PATH] samples of the source contour, each sent through the
    coordinate transform and read as a segment, in sampling order where
    that order has the orientation of the source contour and in reverse
    where it has not. *)
Definition full_warp (source : CompoundPath F) (upper lower : Path F)
    (warped : list (Path F)) : Prop :=
  length warped = length (children source) ∧
  ∀ (i : nat) (path : Path F), children source !! i = Some path →
    ∃ xPath, warped !! i = Some xPath ∧
      closed xPath = true ∧
      let xSegs :=
        Segment_read <$>
          (warpPoint source upper lower <$>
             PaperHelpers.tracePathAsPoints path POINTS_PER_PATH) in
      segments xPath =
        if eqb (Path_orientation xSegs true) (clockwise path) then xSegs
        else reverse (Segment_reversed <$> xSegs).

End methods.
End DualBoundsPathWarp.

(** ** Exact rationals as numbers *)

Definition qz (z : Z) : Qc := Q2Qc (inject_Z z).

#[export] Instance Qc_number : Number Qc := {|
  num_of_Z := qz;
  num_add := Qcplus;
  num_sub := Qcminus;
  num_mul := Qcmult;
  num_div := Qcdiv;
  Math_min a b := if decide (a ≤ b)%Qc then a else b;
  num_le := Qcle;
|}.

(** A drawing library over [Qc] for paths whose edges are straight and
    parallel to the axes: the length of an edge is the sum of its extents
    along the two axes, and the point at a distance is found by walking the
    edges in order.  The area of a path is that of the polygon of its
    anchors; with the y axis pointing down it is positive for a clockwise
    contour. *)
Definition Qc_abs (a : Qc) : Qc := if decide (0 ≤ a)%Qc then a else (- a)%Qc.
Definition Qc_min (a b : Qc) : Qc := if decide (a ≤ b)%Qc then a else b.
Definition Qc_max (a b : Qc) : Qc := if decide (a ≤ b)%Qc then b else a.

Definition edge_length (e : Point Qc * Point Qc) : Qc :=
  (Qc_abs (x e.2 - x e.1) + Qc_abs (y e.2 - y e.1))%Qc.

Definition path_edges (p : Path Qc) : list (Point Qc * Point Qc) :=
  match point <$> segments p with
  | [] => []
  | p0 :: rest => zip (p0 :: rest) (rest ++ (if closed p then [p0] else []))
  end.

Fixpoint walk_edges (es : list (Point Qc * Point Qc)) (d : Qc)
    : option (Point Qc) :=
  match es with
  | [] => None
  | e :: es' =>
      if decide (d ≤ edge_length e)%Qc then
        let f := (d / edge_length e)%Qc in
        Some (mkPoint (x e.1 + (x e.2 - x e.1) * f)%Qc
                      (y e.1 + (y e.2 - y e.1) * f)%Qc)
      else walk_edges es' (d - edge_length e)%Qc
  end.

Definition origin_Qc : Point Qc := mkPoint 0%Qc 0%Qc.

Definition bounds_of (pts : list (Point Qc)) : Rectangle Qc :=
  match pts with
  | [] => mkRectangle origin_Qc 0%Qc 0%Qc
  | p :: ps =>
      let xmin := foldr Qc_min (x p) (x <$> ps) in
      let xmax := foldr Qc_max (x p) (x <$> ps) in
      let ymin := foldr Qc_min (y p) (y <$> ps) in
      let ymax := foldr Qc_max (y p) (y <$> ps) in
      mkRectangle (mkPoint xmin ymin) (xmax - xmin)%Qc (ymax - ymin)%Qc
  end.

(** Twice the signed area of the polygon through the points. *)
Definition shoelace (pts : list (Point Qc)) : Qc :=
  match pts with
  | [] => 0%Qc
  | p0 :: rest =>
      foldr Qcplus 0%Qc
        ((λ e : Point Qc * Point Qc, x e.1 * y e.2 - x e.2 * y e.1)%Qc <$>
           zip pts (rest ++ [p0]))
  end.

#[export] Instance axis_paper : Paper Qc := {|
  Path_length p := foldr Qcplus 0%Qc (edge_length <$> path_edges p);
  Path_getPointAt p d :=
    if decide (0 ≤ d)%Qc then walk_edges (path_edges p) d
    else
      (* a negative distance is measured back from the end of the first
         edge *)
      match path_edges p with
      | [] => None
      | e :: _ =>
          if decide (- d ≤ edge_length e)%Qc
          then walk_edges [e] (edge_length e + d)%Qc
          else None
      end;
  Segment_read o := mkSegment (default origin_Qc o) origin_Qc origin_Qc;
  Path_orientation segs _ := bool_decide (0 ≤ shoelace (point <$> segs))%Qc;
  CompoundPath_orientation cs :=
    bool_decide
      (0 ≤ foldr Qcplus 0%Qc ((λ p, shoelace (point <$> segments p)) <$> cs))%Qc;
  CompoundPath_bounds c :=
    bounds_of (point <$> mjoin (segments <$> children c));
|}.

(** The change flags of the drawing library. *)
#[export] Instance paper_flags : ChangeFlag :=
  {| SEGMENTS := 16; GEOMETRY := 8; ATTRIBUTE := 128 |}.

(** *** Sample inputs *)

(** A horizontal boundary at height [h] of length [len]; no point outside
    [0, len]. *)
Definition hline (h len : Qc) : FunCurve Qc :=
  mkFunCurve len
    (λ d, if decide (0 ≤ d ∧ d ≤ len)%Qc then Some (mkPoint d h) else None).

Definition upper10 : FunCurve Qc := hline (qz 0) (qz 10).
Definition lower20 : FunCurve Qc := hline (qz 5) (qz 20).

(** A curve with no points at all. *)
Definition empty_curve : FunCurve Qc := mkFunCurve 0%Qc (λ _, None).

Definition pt (a b : Z) : Point Qc :=
  mkPoint (qz a) (qz b).
Definition seg (a b : Z) : Segment Qc := mkSegment (pt a b) origin_Qc origin_Qc.

(** The rectangle 100 by 20 at the origin, as one closed clockwise contour. *)
Definition rect_path : Path Qc :=
  mkPath [seg 0 0; seg 100 0; seg 100 20; seg 0 20] true true None 1%Qc.
Definition rect_source : CompoundPath Qc :=
  mkCompoundPath [rect_path] true None None.
Definition store0 : Store Qc := {[ 1%positive := rect_source ]}.

(** The composite built on [rect_source] with explicit boundaries. *)
Definition cfg0 : option (Store Qc * DualBoundsPathWarp.t Qc) :=
  DualBoundsPathWarp.new store0 1%positive
    (Some ([seg 0 0; seg 200 0], [seg 0 50; seg 200 50])) None.

(** A composite on [rect_source] with the boundaries of the end-to-end
    scenario, written out. *)
Definition warp0 : DualBoundsPathWarp.t Qc :=
  DualBoundsPathWarp.mk 1%positive
    (StretchPath [seg 0 0; seg 200 0]) (StretchPath [seg 0 50; seg 200 50])
    (mkCompoundPath [] true None None)
    (Path_new [] true None) (mkStyle None None) false [].

(** The coordinates of an optional point, as plain fractions. *)
Definition coords (p : option (Point Qc)) : option (Q * Q) :=
  (λ p, (this (x p), this (y p))) <$> p.

(** ** binary64 numbers

    TypeScript's [number]: IEEE 754 binary64, every operation rounded to
    the nearest value, ties to even. *)

(** An integer as a number: the nearest binary64 value. *)
Definition float_of_Z (z : Z) : PrimFloat.float :=
  FloatOps.SF2Prim
    (SpecFloat.binary_normalize FloatOps.prec FloatOps.emax z 0 false).

(** [Math.min]: [NaN] when either argument is [NaN]; of the two zeros the
    negative one. *)
Definition float_min (a b : PrimFloat.float) : PrimFloat.float :=
  if PrimFloat.is_nan a || PrimFloat.is_nan b then PrimFloat.nan
  else if PrimFloat.ltb a b then a
  else if PrimFloat.ltb b a then b
  else if PrimFloat.get_sign a then a
  else b.

#[export] Instance float_number : Number PrimFloat.float := {|
  num_of_Z := float_of_Z;
  num_add := PrimFloat.add;
  num_sub := PrimFloat.sub;
  num_mul := PrimFloat.mul;
  num_div := PrimFloat.div;
  Math_min := float_min;
  num_le a b := PrimFloat.leb a b = true;
|}.

(** *** Sample inputs over binary64 *)

(** The segment from [(0, 0)] to [(1, 0)]: the point at distance [d] is
    [(d, 0)]. *)
Definition unit_line : FunCurve PrimFloat.float :=
  mkFunCurve (float_of_Z 1) (λ d, Some (mkPoint d (float_of_Z 0))).

(** A boundary all of whose points are [(a / 10, 0)]. *)
Definition tenths_curve (a : Z) : FunCurve PrimFloat.float :=
  mkFunCurve (float_of_Z 1)
    (λ _, Some (mkPoint (PrimFloat.div (float_of_Z a) (float_of_Z 10))
                        (float_of_Z 0))).

(** ** Further helpers of PaperHelpers *)

(** Addition by a non-negative number does not decrease. *)
Class MonotoneNumber (F : Type) `{Number F} : Prop := {
  ord_add_increases x y : (num_of_Z 0 ≤ y)%num → (x ≤ x + y)%num;
}.

(** The corners of the rect, clockwise starting from topLeft. *)
Definition corners {F} `{Number F} (rect : Rectangle F) : list (Point F) :=
  [topLeft rect; Rectangle_topRight rect;
   Rectangle_bottomRight rect; Rectangle_bottomLeft rect].

(** Two conditions on a composite: its boundaries are shown or hidden
    together, and its derived items carry its current style. *)
Definition boundaries_agree {F} (s : DualBoundsPathWarp.t F) : Prop :=
  visible (DualBoundsPathWarp._upper s) = visible (DualBoundsPathWarp._lower s).

Definition style_applied {F} `{Number F} (s : DualBoundsPathWarp.t F) : Prop :=
  let style := DualBoundsPathWarp._customStyle s in
  cp_style (DualBoundsPathWarp._warped s) = Some style ∧
  fillColor (DualBoundsPathWarp._outline s) =
    (if DualBoundsPathWarp.truthy (backgroundColor style)
     then backgroundColor style else Some "white") ∧
  opacity (DualBoundsPathWarp._outline s) =
    (if DualBoundsPathWarp.truthy (backgroundColor style)
     then num_of_Z 1 else num_of_Z 0).


(** ** Unit offsets along a closed path

    [pathOffsetNormalize] computes with [Math.round] and the remainder
    operator.  Numbers are exact rationals here: for an offset that is not
    negative the program only takes the remainder, which binary64 computes
    without rounding; the sum in the branch for negative offsets is exact
    here, where binary64 rounds it. *)

(** [Math.round]: the nearest integer, a half rounding upwards. *)
Definition Math_round (a : Qc) : Qc := qz (Qfloor (a + Q2Qc (1 # 2))%Qc).

(** [a % b] for [b] other than zero: what is left of [a] once [b] times the
    quotient cut towards zero is taken away, so that the sign is that of
    [a]. *)
Definition Qc_truncate (a : Qc) : Z :=
  if decide (0 ≤ a)%Qc then Qfloor a else Qceiling a.
Definition number_rem (a b : Qc) : Qc := (a - b * qz (Qc_truncate (a / b)))%Qc.

Definition pathOffsetNormalize (offset : Qc) : Qc :=
  let offset :=
    if decide (offset < 0)%Qc then (offset + (Math_round offset + 1))%Qc
    else offset in
  number_rem offset 1.


(** ** The item tree: [findAncestor] and [findSelfOrAncestor]

    Items are references; [parents] maps an item to its [parent], if it has
    one.  The loop
    [[
      while (checking && checking !== prior) { ... }
    ]]
    runs with fuel: [None] means the fuel ran out before the loop ended. *)
Abbreviation Parents := (gmap positive positive).

Fixpoint findAncestor_while (fuel : nat) (parents : Parents)
    (predicate : ref → bool) (prior checking : option ref)
    : option (option ref) :=
  match fuel with
  | O => None
  | S fuel' =>
      match checking with
      | Some c =>
          if decide (checking = prior) then Some None
          else if predicate c then Some checking
          else findAncestor_while fuel' parents predicate checking (parents !! c)
      | None => Some None
      end
  end.

(** Find nearest ancestor satisfying the predicate. *)
Definition findAncestor (fuel : nat) (parents : Parents)
    (item : option ref) (predicate : ref → bool) : option (option ref) :=
  match item with
  | None => Some None
  | Some item =>
      let prior := None in
      let checking := parents !! item in
      findAncestor_while fuel parents predicate prior checking
  end.

(** Find self or nearest ancestor satisfying the predicate. *)
Definition findSelfOrAncestor (fuel : nat) (parents : Parents)
    (item : ref) (predicate : ref → bool) : option (option ref) :=
  if predicate item then Some (Some item)
  else findAncestor fuel parents (Some item) predicate.

(** The [k]-th ancestor of an item: its parent's parent's ... parent. *)
Definition nth_ancestor (parents : Parents) (item : ref) (k : nat) : option ref :=
  Nat.iter k (λ o, o ≫= (parents !!.)) (Some item).


(** ** ParsedFonts: fonts loaded once and kept by URL

    [fonts] is the object used as a map from URL to font; it holds the
    object's own properties, and the URLs are taken not to name a property
    the object inherits (such as [toString]), which the program would find
    without a load.  [opentype.load]
    answers later: [get] issues the request, and [loaded] is the callback
    [get] hands to it, run when the answer arrives.  What the two do to the
    outside is listed as effects, in order.  The types are those of a parsed
    font, of the error of a failed load, and of the identity of an
    [onReady] callback. *)
Module ParsedFonts.

Inductive Effect (Font Err Callback : Type) :=
  | Load (fontUrl : string)
  | OnReady (onReady : Callback) (fontUrl : string) (font : Font)
  | FontLoaded (fontUrl : string) (font : Font)
  | ConsoleError (err : Err).
Arguments Load {Font Err Callback} _.
Arguments OnReady {Font Err Callback} _ _ _.
Arguments FontLoaded {Font Err Callback} _ _.
Arguments ConsoleError {Font Err Callback} _.

Record t (Font Err Callback : Type) := mk { fonts : gmap string Font }.
Arguments mk {Font Err Callback} _.
Arguments fonts {Font Err Callback} _.

Section methods.
Context {Font Err Callback : Type}.

(** [onReady && onReady(fontUrl, font)] *)
Definition callOnReady (onReady : option Callback) (fontUrl : string)
    (font : Font) : list (Effect Font Err Callback) :=
  match onReady with
  | Some k => [OnReady k fontUrl font]
  | None => []
  end.

Definition get (s : t Font Err Callback) (fontUrl : string)
    (onReady : option Callback)
    : t Font Err Callback * list (Effect Font Err Callback) :=
  let font := fonts s !! fontUrl in
  match font with
  | Some font => (s, callOnReady onReady fontUrl font)
  | None => (s, [Load fontUrl])
  end.

(** The callback [(err, font) => ...] of the request issued by
    [get fontUrl onReady]. *)
Definition loaded (s : t Font Err Callback) (fontUrl : string)
    (onReady : option Callback) (result : Err + Font)
    : t Font Err Callback * list (Effect Font Err Callback) :=
  match result with
  | inl err => (s, [ConsoleError err])
  | inr font =>
      (mk (<[fontUrl := font]> (fonts s)),
       callOnReady onReady fontUrl font ++ [FontLoaded fontUrl font])
  end.
End methods.
End ParsedFonts.


(** ** SketchStore: the editor state and the events it dispatches

    The part of the store that runs without fonts, promises or timers.
    [Value] stands for the values the store only passes on (positions,
    outlines, dates, the remaining attributes of a text block or sketch,
    export options).  Every dispatch and every write to local storage is
    recorded, in order. *)
Module SketchStore.

Record ObjectRef := mkRef { itemId : string; itemType : string }.

Record TextBlock (Value : Type) := mkTextBlock {
  _id : string;
  position : option Value;
  outline : option Value;
  attr : Value;
}.
Arguments mkTextBlock {Value} _ _ _ _.
Arguments _id {Value} _.
Arguments position {Value} _.
Arguments outline {Value} _.
Arguments attr {Value} _.

Record Sketch (Value : Type) := mkSketch {
  sketch_id : string;
  savedAt : option Value;
  textBlocks : list (TextBlock Value);
  sketch_attr : Value;
}.
Arguments mkSketch {Value} _ _ _ _.
Arguments sketch_id {Value} _.
Arguments savedAt {Value} _.
Arguments textBlocks {Value} _.
Arguments sketch_attr {Value} _.

Record EditorState (Value : Type) := mkState {
  selection : option ObjectRef;
  editingItem : option ObjectRef;
  sketch : Sketch Value;
  sketchIsDirty : bool;
  loadingSketch : bool;
  userMessage : option string;
  transparency : option bool;
  uploadedImage : option string;
  showHelp : bool;
}.
Arguments mkState {Value} _ _ _ _ _ _ _ _ _.
Arguments selection {Value} _.
Arguments editingItem {Value} _.
Arguments sketch {Value} _.
Arguments sketchIsDirty {Value} _.
Arguments loadingSketch {Value} _.
Arguments userMessage {Value} _.
Arguments transparency {Value} _.
Arguments uploadedImage {Value} _.
Arguments showHelp {Value} _.

Inductive Event (Value : Type) :=
  | selectionChanged (item : option ObjectRef)
  | editingItemChanged (item : option ObjectRef)
  | editorClosed (block : TextBlock Value)
  | textblockRemoved (id : string)
  | arrangeChanged (block : TextBlock Value)
  | contentChanged (sketch : Sketch Value)
  | userMessageChanged (message : string)
  | imageUploadedEvent (src : option string)
  | transparencyNext (value : option bool)
  | exportPNGRequested (data : Value)
  | exportSVGRequested (data : Value)
  | showHelpChanged (value : bool)
  | editorSavedSketch (id : string)
  | snapshotExpired (sketch : Sketch Value).
Arguments selectionChanged {Value} _.
Arguments editingItemChanged {Value} _.
Arguments editorClosed {Value} _.
Arguments textblockRemoved {Value} _.
Arguments arrangeChanged {Value} _.
Arguments contentChanged {Value} _.
Arguments userMessageChanged {Value} _.
Arguments imageUploadedEvent {Value} _.
Arguments transparencyNext {Value} _.
Arguments exportPNGRequested {Value} _.
Arguments exportSVGRequested {Value} _.
Arguments showHelpChanged {Value} _.
Arguments editorSavedSketch {Value} _.
Arguments snapshotExpired {Value} _.

Record t (Value : Type) := mk {
  state : EditorState Value;
  events : list (Event Value);          (* dispatched, oldest first *)
  localSketch : option string;          (* localStorage['sketch'] *)
}.
Arguments mk {Value} _ _ _.
Arguments state {Value} _.
Arguments events {Value} _.
Arguments localSketch {Value} _.

Section methods.
Context {Value : Type}.
(* JSON.stringify on a sketch *)
Context (stringify : Sketch Value → string).
Implicit Types (s : t Value) (st : EditorState Value).

Definition dispatch (e : Event Value) s : t Value :=
  mk (state s) (events s ++ [e]) (localSketch s).
Definition with_state (f : EditorState Value → EditorState Value) s : t Value :=
  mk (f (state s)) (events s) (localSketch s).

Definition set_selection (v : option ObjectRef) st : EditorState Value :=
  mkState v (editingItem st) (sketch st) (sketchIsDirty st) (loadingSketch st)
          (userMessage st) (transparency st) (uploadedImage st) (showHelp st).
Definition set_editingItem (v : option ObjectRef) st : EditorState Value :=
  mkState (selection st) v (sketch st) (sketchIsDirty st) (loadingSketch st)
          (userMessage st) (transparency st) (uploadedImage st) (showHelp st).
Definition set_sketch (v : Sketch Value) st : EditorState Value :=
  mkState (selection st) (editingItem st) v (sketchIsDirty st) (loadingSketch st)
          (userMessage st) (transparency st) (uploadedImage st) (showHelp st).
Definition set_sketchIsDirty (v : bool) st : EditorState Value :=
  mkState (selection st) (editingItem st) (sketch st) v (loadingSketch st)
          (userMessage st) (transparency st) (uploadedImage st) (showHelp st).
Definition set_userMessage (v : option string) st : EditorState Value :=
  mkState (selection st) (editingItem st) (sketch st) (sketchIsDirty st)
          (loadingSketch st) v (transparency st) (uploadedImage st) (showHelp st).
Definition set_transparency (v : option bool) st : EditorState Value :=
  mkState (selection st) (editingItem st) (sketch st) (sketchIsDirty st)
          (loadingSketch st) (userMessage st) v (uploadedImage st) (showHelp st).
Definition set_uploadedImage (v : option string) st : EditorState Value :=
  mkState (selection st) (editingItem st) (sketch st) (sketchIsDirty st)
          (loadingSketch st) (userMessage st) (transparency st) v (showHelp st).
Definition set_showHelp (v : bool) st : EditorState Value :=
  mkState (selection st) (editingItem st) (sketch st) (sketchIsDirty st)
          (loadingSketch st) (userMessage st) (transparency st)
          (uploadedImage st) v.
Definition set_textBlocks (v : list (TextBlock Value)) (k : Sketch Value)
    : Sketch Value :=
  mkSketch (sketch_id k) (savedAt k) v (sketch_attr k).

(** [_.find(this.state.sketch.textBlocks, tb => tb._id === id)] *)
Definition getBlock s (id : string) : option (TextBlock Value) :=
  find (λ tb, String.eqb (_id tb) id) (textBlocks (sketch (state s))).

(** [force] defaults to [true]. *)
Definition setSelection (item : option ObjectRef) (force : option bool) s
    : t Value :=
  let force := default true force in
  let unchanged :=
    match item with
    | Some item =>
        match selection (state s) with
        | Some current => String.eqb (itemId current) (itemId item)
        | None => false
        end
    | None =>
        match selection (state s) with
        | Some _ => false
        | None => true
        end
    end in
  if negb force && unchanged then s
  else dispatch (selectionChanged item) (with_state (set_selection item) s).

(** [force] is optional and counts as false when left out. *)
Definition setEditingItem (item : option ObjectRef) (force : option bool) s
    : t Value :=
  let force := default false force in
  let unchanged :=
    match item with
    | Some item =>
        match editingItem (state s) with
        | Some current => String.eqb (itemId current) (itemId item)
        | None => false
        end
    | None =>
        match editingItem (state s) with
        | Some _ => false
        | None => true
        end
    end in
  if negb force && unchanged then s
  else
    let s :=
      match editingItem (state s) with
      | Some current =>
          if String.eqb (itemType current) "TextBlock" then
            match getBlock s (itemId current) with
            | Some currentEditingBlock =>
                dispatch (editorClosed currentEditingBlock) s
            | None => s
            end
          else s
      | None => s
      end in
    let s :=
      match item with
      | Some _ => setSelection item None s
      | None => s
      end in
    dispatch (editingItemChanged item) (with_state (set_editingItem item) s).

Definition setUserMessage (message : string) s : t Value :=
  if decide (userMessage (state s) ≠ Some message) then
    dispatch (userMessageChanged message)
      (with_state (set_userMessage (Some message)) s)
  else s.

Definition setDefaultUserMessage s : t Value :=
  let message :=
    if sketchIsDirty (state s) || negb (bool_decide (is_Some (savedAt (sketch (state s)))))
    then "Unsaved" else "Saved" in
  setUserMessage message s.

Definition changedSketchContent s : t Value :=
  let s := with_state (set_sketchIsDirty true) s in
  let s := dispatch (contentChanged (sketch (state s))) s in
  setDefaultUserMessage s.

Definition setTransparency (value : option bool) s : t Value :=
  let s := with_state (set_transparency value) s in
  dispatch (transparencyNext (transparency (state s))) s.

Definition imageUploaded (src : string) s : t Value :=
  let s := with_state (set_uploadedImage (Some src)) s in
  let s := dispatch (imageUploadedEvent (Some src)) s in
  if negb (bool_decide (transparency (state s) = Some true))
  then setTransparency (Some true) s else s.

Definition removeUploadedImage s : t Value :=
  let s := with_state (set_uploadedImage None) s in
  let s := dispatch (imageUploadedEvent None) s in
  if bool_decide (transparency (state s) = Some true)
  then setTransparency (Some false) s else s.

(** [saveSketch(this.state.sketch)], as the timer calls it; [now] is
    [new Date()]. *)
Definition saveSketch (now : Value) s : t Value :=
  let s := setUserMessage "Saving" s in
  let sketch0 := sketch (state s) in
  let sketch1 := mkSketch (sketch_id sketch0) (Some now) (textBlocks sketch0)
                          (sketch_attr sketch0) in
  let s := with_state (set_sketch sketch1) s in
  let s := mk (state s) (events s) (Some (stringify sketch1)) in
  let s := with_state (set_sketchIsDirty false) s in
  let s := setDefaultUserMessage s in
  let s := dispatch (editorSavedSketch (sketch_id sketch1)) s in
  dispatch (snapshotExpired sketch1) s.

(** What the save timer does when it fires. *)
Definition saveTimerFired (now : Value) s : t Value :=
  let sketch := sketch (state s) in
  if negb (loadingSketch (state s))
     && sketchIsDirty (state s)
     && negb (String.eqb (sketch_id sketch) "")
     && negb (Nat.eqb (length (textBlocks sketch)) 0)
  then saveSketch now s
  else s.

(** *** The subscriptions *)

Definition sketch_setSelection (data : option ObjectRef) s : t Value :=
  let s := setSelection data None s in
  setEditingItem data None s.

Definition editor_exportPNG (data : Value) s : t Value :=
  let s := setSelection None None s in
  let s := setEditingItem None None s in
  dispatch (exportPNGRequested data) s.

Definition editor_exportSVG (data : Value) s : t Value :=
  let s := setSelection None None s in
  let s := setEditingItem None None s in
  dispatch (exportSVGRequested data) s.

Definition editor_toggleHelp s : t Value :=
  let s := with_state (λ st, set_showHelp (negb (showHelp st)) st) s in
  dispatch (showHelpChanged (showHelp (state s))) s.

Definition textBlock_remove (id : string) s : t Value :=
  let blocks := textBlocks (sketch (state s)) in
  let didDelete := existsb (λ tb, String.eqb (_id tb) id) blocks in
  let s :=
    with_state
      (λ st, set_sketch
               (set_textBlocks
                  (filter (λ tb, String.eqb (_id tb) id = false) blocks)
                  (sketch st)) st) s in
  if didDelete then
    let s := dispatch (textblockRemoved id) s in
    let s := changedSketchContent s in
    setEditingItem None None s
  else s.

(** The first block with the given id, changed in place. *)
Fixpoint update_block (id : string) (f : TextBlock Value → TextBlock Value)
    (blocks : list (TextBlock Value)) : list (TextBlock Value) :=
  match blocks with
  | [] => []
  | tb :: rest =>
      if String.eqb (_id tb) id then f tb :: rest
      else tb :: update_block id f rest
  end.

Definition textBlock_updateArrange (id : string)
    (position outline : option Value) s : t Value :=
  match getBlock s id with
  | Some block =>
      let block := mkTextBlock (_id block) position outline (attr block) in
      let s :=
        with_state
          (λ st, set_sketch
                   (set_textBlocks
                      (update_block id (λ _, block) (textBlocks (sketch st)))
                      (sketch st)) st) s in
      let s := dispatch (arrangeChanged block) s in
      changedSketchContent s
  | None => s
  end.

(** What reaches the store from outside, as far as modelled here: actions,
    public methods and the save timer. *)
Inductive Input :=
  | SetSelection (data : option ObjectRef)
  | ExportPNG (data : Value)
  | ExportSVG (data : Value)
  | ToggleHelp
  | RemoveTextBlock (id : string)
  | UpdateArrange (id : string) (position outline : option Value)
  | ImageUploaded (src : string)
  | RemoveUploadedImage
  | SaveTimerFired (now : Value).

Definition handle (a : Input) s : t Value :=
  match a with
  | SetSelection data => sketch_setSelection data s
  | ExportPNG data => editor_exportPNG data s
  | ExportSVG data => editor_exportSVG data s
  | ToggleHelp => editor_toggleHelp s
  | RemoveTextBlock id => textBlock_remove id s
  | UpdateArrange id position outline =>
      textBlock_updateArrange id position outline s
  | ImageUploaded src => imageUploaded src s
  | RemoveUploadedImage => removeUploadedImage s
  | SaveTimerFired now => saveTimerFired now s
  end.

(** The item being edited is the selected item. *)
Definition editing_is_selected s : Prop :=
  match editingItem (state s) with
  | Some editing =>
      ∃ selected, selection (state s) = Some selected ∧
                  itemId selected = itemId editing
  | None => True
  end.
End methods.
End SketchStore.

(** *** Further sample inputs *)

(** A closed path of a single anchor: its length is zero. *)
Definition dot_path : Path Qc :=
  mkPath [seg 3 4] true true None 1%Qc.

(** The rectangle of [rect_path] with its anchors in the opposite order: a
    counter-clockwise contour. *)
Definition ccw_path : Path Qc :=
  mkPath [seg 0 0; seg 0 20; seg 100 20; seg 100 0] true true None 1%Qc.
Definition ccw_source : CompoundPath Qc :=
  mkCompoundPath [ccw_path] true None None.
Definition store2 : Store Qc :=
  {[ 1%positive := rect_source; 2%positive := ccw_source ]}.



(** A boundary that starts where [upper10] starts and is twice as long. *)
Definition upper20 : FunCurve Qc := hline (qz 0) (qz 20).

(** The composite built on [rect_source] without boundaries: they are
    taken from the bounding box. *)
Definition cfg1 : option (Store Qc * DualBoundsPathWarp.t Qc) :=
  DualBoundsPathWarp.new store0 1%positive None None.

(** A chain of three items: item 3 lies in item 2, which lies in item 1. *)
Definition tree0 : Parents :=
  {[ 3%positive := 2%positive; 2%positive := 1%positive ]}.
Definition is_root (r : ref) : bool := bool_decide (r = 1%positive).

(** An editor with one text block, which is selected and being edited. *)
Definition block_ref : SketchStore.ObjectRef := SketchStore.mkRef "b1" "TextBlock".
Definition editor0 : SketchStore.t nat :=
  SketchStore.mk
    (SketchStore.mkState (Some block_ref) (Some block_ref)
       (SketchStore.mkSketch "s1" None
          [SketchStore.mkTextBlock "b1" None None 0%nat] 0%nat)
       false false None None None false)
    [] None.
Definition stringify0 (k : SketchStore.Sketch nat) : string :=
  SketchStore.sketch_id k.

(** * Properties *)

(** ** The sampling loop *)

Section sampling_facts.
Context {F C : Type} `{Number F} `{Curvelike F C}.
Local Open Scope num_scope.

Lemma trace_while_queries (path : C) numPoints pathLength offsetIncr fuel :
  ∀ points i offset,
    (Z.to_nat (numPoints - i) < fuel)%nat →
    trace_while fuel path numPoints pathLength offsetIncr points i offset =
    Some (points ++
          (getPointAt path <$>
             trace_queries fuel numPoints pathLength offsetIncr i offset)).
Proof.
  induction fuel as [|fuel IH]; intros points i offset Hfuel; [lia|].
  simpl. destruct (Z.ltb_spec i numPoints) as [Hlt|Hge].
  - rewrite IH by lia. by rewrite <-app_assoc.
  - by rewrite app_nil_r.
Qed.

Lemma trace_queries_length numPoints pathLength offsetIncr fuel :
  ∀ i offset,
    (Z.to_nat (numPoints - i) < fuel)%nat →
    length (trace_queries fuel numPoints pathLength offsetIncr i offset) =
    Z.to_nat (numPoints - i).
Proof.
  induction fuel as [|fuel IH]; intros i offset Hfuel; [lia|].
  simpl. destruct (Z.ltb_spec i numPoints) as [Hlt|Hge]; simpl.
  - rewrite IH by lia. lia.
  - lia.
Qed.

Lemma trace_queries_lookup numPoints pathLength offsetIncr fuel :
  ∀ (k : nat) i offset,
    (Z.to_nat (numPoints - i) < fuel)%nat →
    (i + Z.of_nat k < numPoints)%Z →
    trace_queries fuel numPoints pathLength offsetIncr i offset !! k =
    Some (Math_min (offset_after offsetIncr k offset) pathLength).
Proof.
  induction fuel as [|fuel IH]; intros k i offset Hfuel Hk; [lia|].
  simpl. destruct (Z.ltb_spec i numPoints) as [Hlt|Hge]; [|lia].
  destruct k as [|k]; [done|]. simpl.
  rewrite IH by lia. do 2 f_equal.
  symmetry. exact (Nat.iter_succ_r k (λ o, o + offsetIncr) offset).
Qed.

(** The loop ends within its fuel: the sampler is a total function. *)
Lemma trace_points_queries (path : C) numPoints :
  trace_points path numPoints =
  getPointAt path <$> sampler_queries (curve_length path) numPoints.
Proof.
  unfold trace_points, sampler_queries.
  rewrite trace_while_queries; [done|]. unfold trace_fuel. lia.
Qed.

Lemma trace_queries_fuel numPoints pathLength offsetIncr f1 :
  ∀ f2 i offset,
    (Z.to_nat (numPoints - i) < f1)%nat → (f1 ≤ f2)%nat →
    trace_queries f2 numPoints pathLength offsetIncr i offset =
    trace_queries f1 numPoints pathLength offsetIncr i offset.
Proof.
  induction f1 as [|f1 IH]; intros f2 i o H1 H2; [lia|].
  destruct f2 as [|f2]; [lia|]. simpl.
  destruct (Z.ltb_spec i numPoints); [|done].
  f_equal. apply IH; lia.
Qed.

(** The loop ends within its fuel, and more fuel changes nothing: the
    sampler is a total function. *)
Lemma trace_while_terminates (path : C) numPoints fuel :
  (trace_fuel numPoints ≤ fuel)%nat →
  trace_while fuel path numPoints (curve_length path)
    (curve_length path / num_of_Z numPoints) [] 0%Z (num_of_Z 0) =
  Some (trace_points path numPoints).
Proof.
  intros Hfuel. unfold trace_points.
  rewrite !trace_while_queries by (unfold trace_fuel in *; lia).
  rewrite (trace_queries_fuel _ _ _ (trace_fuel numPoints) fuel);
    [done| unfold trace_fuel; lia | done].
Qed.

Lemma sampler_queries_length pathLength numPoints :
  length (sampler_queries (F:=F) pathLength numPoints) = Z.to_nat numPoints.
Proof.
  unfold sampler_queries. rewrite trace_queries_length.
  - f_equal; lia.
  - unfold trace_fuel; lia.
Qed.

Lemma sampler_queries_lookup pathLength numPoints (k : nat) :
  (Z.of_nat k < numPoints)%Z →
  sampler_queries pathLength numPoints !! k =
  Some (Math_min
          (offset_after (pathLength / num_of_Z numPoints) k (num_of_Z 0))
          pathLength).
Proof.
  intros Hk. unfold sampler_queries. apply trace_queries_lookup.
  - unfold trace_fuel; lia.
  - lia.
Qed.
End sampling_facts.

Section exact_facts.
Context {F : Type} `{ExactNumber F}.
Local Open Scope num_scope.

Add Field num_field : exact_field.

Lemma num_mul_0_l (a : F) : num_of_Z 0 * a = num_of_Z 0.
Proof. ring. Qed.

Lemma num_mul_0_r (a : F) : a * num_of_Z 0 = num_of_Z 0.
Proof. ring. Qed.

Lemma num_lerp_0 (t b : F) : t + (b - t) * num_of_Z 0 = t.
Proof. ring. Qed.

Lemma num_lerp_1 (t b : F) : t + (b - t) * num_of_Z 1 = b.
Proof. ring. Qed.

Lemma num_lerp_half (t b : F) :
  t + (b - t) * (num_of_Z 1 / num_of_Z 2) = (b - t) / num_of_Z 2 + t.
Proof. field. apply exact_two_nonzero. Qed.

Lemma num_lerp_affine (t b a v w : F) :
  t + (b - t) * ((num_of_Z 1 - a) * v + a * w) =
  (t + (b - t) * v) * (num_of_Z 1 - a) + (t + (b - t) * w) * a.
Proof. ring. Qed.

Lemma offset_after_exact (s : F) (k : nat) :
  offset_after s k (num_of_Z 0) = num_of_Z (Z.of_nat k) * s.
Proof.
  induction k as [|k IH].
  - change (num_of_Z 0 = num_of_Z 0 * s). ring.
  - unfold offset_after in *. simpl. rewrite IH.
    replace (Z.of_nat (S k)) with (Z.of_nat k + 1)%Z by lia.
    rewrite exact_of_Z_add. ring.
Qed.
End exact_facts.

Section ordered_facts.
Context {F : Type} `{OrderedNumber F}.
Local Open Scope num_scope.

Lemma Math_min_le_r (a b : F) : Math_min a b ≤ b.
Proof.
  destruct (ord_total a b) as [Hab|Hba].
  - by rewrite ord_min_l.
  - rewrite ord_min_r by done. apply ord_refl.
Qed.

Lemma Math_min_nonneg (a b : F) :
  num_of_Z 0 ≤ a → num_of_Z 0 ≤ b → num_of_Z 0 ≤ Math_min a b.
Proof.
  intros Ha Hb. destruct (ord_total a b) as [Hab|Hba].
  - by rewrite ord_min_l.
  - by rewrite ord_min_r.
Qed.

Lemma trace_queries_in_range numPoints (pathLength offsetIncr : F) fuel :
  num_of_Z 0 ≤ pathLength → num_of_Z 0 ≤ offsetIncr →
  ∀ i offset,
    num_of_Z 0 ≤ offset →
    Forall (λ d, num_of_Z 0 ≤ d ∧ d ≤ pathLength)
      (trace_queries fuel numPoints pathLength offsetIncr i offset).
Proof.
  intros HL Hincr. induction fuel as [|fuel IH]; intros i offset Ho; simpl.
  - constructor.
  - destruct (i <? numPoints)%Z; constructor.
    + split; [by apply Math_min_nonneg | apply Math_min_le_r].
    + apply IH. by apply ord_add_nonneg.
Qed.
End ordered_facts.

(** ** The rationals are exact and ordered *)

Lemma qz_add a b : qz (a + b) = (qz a + qz b)%Qc.
Proof.
  unfold qz. apply Qc_is_canon. simpl.
  rewrite !Qred_correct, inject_Z_plus. reflexivity.
Qed.

#[export] Instance Qc_exact : ExactNumber Qc.
Proof.
  split; simpl.
  - change (qz 0) with 0%Qc. change (qz 1) with 1%Qc.
    split; [split|..]; intros; try ring.
    + discriminate.
    + unfold Qcdiv. ring.
    + field. done.
  - apply qz_add.
  - discriminate.
Qed.

#[export] Instance Qc_ordered : OrderedNumber Qc.
Proof.
  split; simpl.
  - apply Qcle_refl.
  - apply Qcle_trans.
  - intros a b. destruct (Qclt_le_dec a b) as [Hlt|Hle]; [left|right]; [|done].
    by apply Qclt_le_weak.
  - intros a b Hab. by rewrite decide_True.
  - intros a b Hba. case_decide as Hab; [|done]. by apply Qcle_antisym.
  - intros a b. change (qz 0) with 0%Qc. apply Qcplus_nonneg_nonneg.
  - intros a n Ha Hn. change (qz 0) with 0%Qc in *. unfold Qcdiv.
    apply Qcmult_nonneg_nonneg; [done|].
    apply Qclt_le_weak, Qcinv_pos.
    unfold qz, Qclt. simpl. rewrite !Qred_correct.
    unfold Qlt. simpl. lia.
Qed.

(** ** The dual-boundary projector *)

Section projector_facts.
Context {F C : Type} `{Number F} `{Curvelike F C}.
Local Open Scope num_scope.

(** C1 (as amended): the projection queries the upper boundary at
    [u * upperLength] and the lower boundary at [u * lowerLength], the
    lengths being those of the two curves handed to
    [dualBoundsPathProjection]; when both points exist the result is
    [topPoint + (bottomPoint - topPoint) * v], coordinate by coordinate. *)
Theorem C1_projection_queries_both_at_u (upper lower : C) (u v : F) :
  let topPoint := getPointAt upper (u * curve_length upper) in
  let bottomPoint := getPointAt lower (u * curve_length lower) in
  PaperHelpers.dualBoundsPathProjection upper lower (mkPoint u v) =
  match topPoint, bottomPoint with
  | Some tp, Some bp =>
      Some (mkPoint (x tp + (x bp - x tp) * v) (y tp + (y bp - y tp) * v))
  | _, _ => topPoint
  end.
Proof.
  simpl. unfold PaperHelpers.dualBoundsPathProjection. simpl.
  destruct (getPointAt upper _) as [tp|]; [|done].
  by destruct (getPointAt lower _) as [bp|].
Qed.

(** C6: if either boundary query yields no point, the projection returns
    the top point as it is, present or absent; the function is total, so
    nothing is raised. *)
Theorem C6_degenerate_projection_returns_top (upper lower : C) (unitPoint : Point F) :
  getPointAt upper (x unitPoint * curve_length upper) = None ∨
  getPointAt lower (x unitPoint * curve_length lower) = None →
  PaperHelpers.dualBoundsPathProjection upper lower unitPoint =
  getPointAt upper (x unitPoint * curve_length upper).
Proof.
  unfold PaperHelpers.dualBoundsPathProjection.
  intros [Htop|Hbottom].
  - by rewrite Htop.
  - rewrite Hbottom. by destruct (getPointAt upper _).
Qed.
End projector_facts.

Lemma C1_counterexample :
  PaperHelpers.dualBoundsPathProjection upper10 lower20
    (mkPoint (Q2Qc (1 # 2)) (qz 1)) = Some (pt 10 5) ∧
  PaperHelpers.projection_as_specified upper10 lower20
    (mkPoint (Q2Qc (1 # 2)) (qz 1)) = Some (pt 20 5) ∧
  PaperHelpers.dualBoundsPathProjection upper10 lower20
    (mkPoint (Q2Qc (1 # 2)) (qz 1)) ≠
  PaperHelpers.projection_as_specified upper10 lower20
    (mkPoint (Q2Qc (1 # 2)) (qz 1)).
Proof.
  assert (Hcode : PaperHelpers.dualBoundsPathProjection upper10 lower20
                    (mkPoint (Q2Qc (1 # 2)) (qz 1)) = Some (pt 10 5)).
  { vm_compute. do 2 f_equal; by apply Qc_is_canon. }
  assert (Hspec : PaperHelpers.projection_as_specified upper10 lower20
                    (mkPoint (Q2Qc (1 # 2)) (qz 1)) = Some (pt 20 5)).
  { vm_compute. do 2 f_equal; by apply Qc_is_canon. }
  rewrite Hcode, Hspec. split_and!; [done..|].
  intros [=].
Qed.

Lemma C6_witness :
  getPointAt empty_curve (Q2Qc (1 # 2) * curve_length empty_curve)%num = None ∧
  PaperHelpers.dualBoundsPathProjection upper10 empty_curve
    (mkPoint (Q2Qc (1 # 2)) (qz 1)) =
  getPointAt upper10 (Q2Qc (1 # 2) * curve_length upper10)%num.
Proof.
  split; [reflexivity|].
  apply (C6_degenerate_projection_returns_top upper10 empty_curve).
  right. reflexivity.
Defined.

Section projector_exact.
Context {F C : Type} `{ExactNumber F} `{Curvelike F C}.
Local Open Scope num_scope.

(** Over exact arithmetic, whenever the two boundary queries succeed,
    the projection at the corner [(0,0)] is [upper.pointAt(0)] and at
    [(0,1)] it is [lower.pointAt(0)]; for a fixed [u], with [tp] and [bp]
    the two boundary points, [v = 0] gives [tp], [v = 1] gives [bp],
    [v = 1/2] gives [midpoint tp bp], and the projection is affine in [v]:
    it equals [tp + (bp - tp) * v] and maps a weighted mean of two values
    of [v] to the weighted mean of their projections. *)
Lemma projection_corners_and_affine_exact (upper lower : C) :
  let project := PaperHelpers.dualBoundsPathProjection upper lower in
  let zero := num_of_Z 0 in
  let one := num_of_Z 1 in
  (is_Some (getPointAt upper zero) → is_Some (getPointAt lower zero) →
     project (mkPoint zero zero) = getPointAt upper zero ∧
     project (mkPoint zero one) = getPointAt lower zero) ∧
  (∀ u tp bp,
     getPointAt upper (u * curve_length upper) = Some tp →
     getPointAt lower (u * curve_length lower) = Some bp →
     project (mkPoint u zero) = Some tp ∧
     project (mkPoint u one) = Some bp ∧
     project (mkPoint u (one / num_of_Z 2)) = Some (PaperHelpers.midpoint tp bp) ∧
     (∀ v, project (mkPoint u v) =
           Some (Point.add tp (Point.multiply (Point.subtract bp tp) v))) ∧
     (∀ a v w pv pw,
        project (mkPoint u v) = Some pv →
        project (mkPoint u w) = Some pw →
        project (mkPoint u ((one - a) * v + a * w)) =
        Some (Point.add (Point.multiply pv (one - a)) (Point.multiply pw a)))).
Proof.
  simpl.
  assert (Hfixed : ∀ u tp bp,
    getPointAt upper (u * curve_length upper) = Some tp →
    getPointAt lower (u * curve_length lower) = Some bp →
    ∀ v, PaperHelpers.dualBoundsPathProjection upper lower (mkPoint u v) =
         Some (Point.add tp (Point.multiply (Point.subtract bp tp) v))).
  { intros u tp bp Htp Hbp v.
    unfold PaperHelpers.dualBoundsPathProjection. simpl.
    by rewrite Htp, Hbp. }
  assert (Hpoints : ∀ u tp bp,
    getPointAt upper (u * curve_length upper) = Some tp →
    getPointAt lower (u * curve_length lower) = Some bp →
    PaperHelpers.dualBoundsPathProjection upper lower (mkPoint u (num_of_Z 0)) = Some tp ∧
    PaperHelpers.dualBoundsPathProjection upper lower (mkPoint u (num_of_Z 1)) = Some bp).
  { intros u [tx ty] [bx by_] Htp Hbp.
    rewrite !(Hfixed u _ _ Htp Hbp).
    unfold Point.add, Point.multiply, Point.subtract; simpl.
    by rewrite !num_lerp_0, !num_lerp_1. }
  split.
  - intros [tp Htp] [bp Hbp]. rewrite Htp, Hbp.
    apply Hpoints; by rewrite num_mul_0_l.
  - intros u tp bp Htp Hbp.
    destruct (Hpoints u tp bp Htp Hbp) as [Hv0 Hv1].
    split_and!; [done|done| | by apply Hfixed |].
    + rewrite (Hfixed u _ _ Htp Hbp). destruct tp as [tx ty], bp as [bx by_].
      unfold PaperHelpers.midpoint, Point.add, Point.multiply,
        Point.subtract, Point.divide; simpl.
      by rewrite !num_lerp_half.
    + intros a v w pv pw.
      rewrite !(Hfixed u _ _ Htp Hbp). intros [= <-] [= <-].
      destruct tp as [tx ty], bp as [bx by_].
      unfold Point.add, Point.multiply, Point.subtract; simpl.
      by rewrite !num_lerp_affine.
Qed.
End projector_exact.

Section projector_interpolation.
Context {F C : Type} `{Number F} `{Curvelike F C}.
Local Open Scope num_scope.

(** C3 (as amended): whenever the two boundary queries succeed, with [tp]
    and [bp] the two boundary points for [u], the projection of [(u, v)] is
    [tp + (bp - tp) * v], coordinate by coordinate, in the arithmetic of
    the program.  Where that arithmetic is exact, this gives the corner
    identities ([(0,0)] goes to [upper.pointAt(0)], [(0,1)] to
    [lower.pointAt(0)]), [v = 0] gives [tp], [v = 1] gives [bp], [v = 1/2]
    gives [midpoint tp bp], and the projection maps a weighted mean of two
    values of [v] to the weighted mean of their projections. *)
Theorem C3_projection_corners_and_affine (upper lower : C) :
  let project := PaperHelpers.dualBoundsPathProjection upper lower in
  let zero := num_of_Z 0 in
  let one := num_of_Z 1 in
  (∀ u tp bp,
     getPointAt upper (u * curve_length upper) = Some tp →
     getPointAt lower (u * curve_length lower) = Some bp →
     ∀ v, project (mkPoint u v) =
          Some (mkPoint (x tp + (x bp - x tp) * v) (y tp + (y bp - y tp) * v))) ∧
  (ExactNumber F →
   (is_Some (getPointAt upper zero) → is_Some (getPointAt lower zero) →
      project (mkPoint zero zero) = getPointAt upper zero ∧
      project (mkPoint zero one) = getPointAt lower zero) ∧
   (∀ u tp bp,
      getPointAt upper (u * curve_length upper) = Some tp →
      getPointAt lower (u * curve_length lower) = Some bp →
      project (mkPoint u zero) = Some tp ∧
      project (mkPoint u one) = Some bp ∧
      project (mkPoint u (one / num_of_Z 2)) = Some (PaperHelpers.midpoint tp bp) ∧
      (∀ a v w pv pw,
         project (mkPoint u v) = Some pv →
         project (mkPoint u w) = Some pw →
         project (mkPoint u ((one - a) * v + a * w)) =
         Some (Point.add (Point.multiply pv (one - a)) (Point.multiply pw a))))).
Proof.
  cbv zeta. split.
  - intros u tp bp Htp Hbp v.
    unfold PaperHelpers.dualBoundsPathProjection. cbn [x y].
    by rewrite Htp, Hbp.
  - intros Hexact.
    destruct (projection_corners_and_affine_exact upper lower)
      as [Hcorner Hfixed].
    split; [exact Hcorner|].
    intros u tp bp Htp Hbp.
    destruct (Hfixed u tp bp Htp Hbp) as (Hv0 & Hv1 & Hhalf & _ & Haff).
    split_and!; [exact Hv0|exact Hv1|exact Hhalf|exact Haff].
Qed.
End projector_interpolation.

(** ** The curve sampler *)

Section sampler_facts.
Context {F : Type} `{Number F} `{Paper F}.
Local Open Scope num_scope.

Lemma PathHelper_tracePath_segments (path : Path F) (n : Z) :
  (1 ≤ n)%Z →
  segments (PathHelper.tracePath path n) =
  Segment_read <$> (getPointAt path <$> sampler_queries (curve_length path) n).
Proof.
  intros Hn. unfold PathHelper.tracePath. rewrite trace_points_queries.
  destruct (sampler_queries (curve_length path) n) as [|d ds] eqn:Hq; [|done].
  apply (f_equal length) in Hq. rewrite sampler_queries_length in Hq.
  simpl in Hq. lia.
Qed.

(** C7: sampling a compound path without children yields no result
    ([null]), whatever the integer [pointsPerPath]; so does the dispatch
    on the kind of path item.  Both helper classes agree. *)
Theorem C7_empty_compound_yields_null (path : CompoundPath F) (pointsPerPath : Z) :
  children path = [] →
  PaperHelpers.traceCompoundPath path pointsPerPath = None ∧
  PathHelper.traceCompoundPath path pointsPerPath = None ∧
  PaperHelpers.tracePathItem (PathItem_CompoundPath path) pointsPerPath = None ∧
  PathHelper.tracePathItem (PathItem_CompoundPath path) pointsPerPath = None.
Proof.
  intros Hempty. unfold PaperHelpers.tracePathItem, PathHelper.tracePathItem,
    PaperHelpers.traceCompoundPath, PathHelper.traceCompoundPath.
  by rewrite Hempty.
Qed.
End sampler_facts.

Section sampler_running_sum.
Context {F C : Type} `{Number F} `{Curvelike F C}.
Local Open Scope num_scope.

(** C2 (as amended): for a curve and an integer [n >= 1], the sampling
    loop ends and the sampler returns exactly [n] points, the [i]-th being
    [curve.getPointAt(min(s_i, length))], where [s_i] is the running sum
    [0 + step + ... + step] ([i] additions of [step = length / n]) in the
    arithmetic of the program; [s_i] is [i * step] where that arithmetic is
    exact.  Where [min(0, length)] is [0], as for a length that is not
    negative, the first point is [curve.getPointAt(0)], and it is the only
    one for [n = 1].  For a path, [tracePathAsPoints] is this sampler, and
    the older [PathHelper.tracePath] builds its path from the same
    points. *)
Theorem C2_sampler_points (c : C) (n : Z) :
  (1 ≤ n)%Z →
  let step := curve_length c / num_of_Z n in
  let points := trace_points c n in
  (∀ fuel, (trace_fuel n ≤ fuel)%nat →
     trace_while fuel c n (curve_length c) step [] 0%Z (num_of_Z 0) =
     Some points) ∧
  length points = Z.to_nat n ∧
  (∀ i : nat, (Z.of_nat i < n)%Z →
     points !! i =
     Some (getPointAt c
             (Math_min (offset_after step i (num_of_Z 0)) (curve_length c)))) ∧
  (Math_min (num_of_Z 0) (curve_length c) = num_of_Z 0 →
     points !! 0%nat = Some (getPointAt c (num_of_Z 0)) ∧
     (n = 1%Z → points = [getPointAt c (num_of_Z 0)])) ∧
  (ExactNumber F →
   ∀ i : nat, offset_after step i (num_of_Z 0) = num_of_Z (Z.of_nat i) * step) ∧
  (∀ (P : Paper F) (path : Path F),
     PaperHelpers.tracePathAsPoints path n = trace_points path n ∧
     segments (PathHelper.tracePath path n) =
       Segment_read <$> trace_points path n).
Proof.
  intros Hn. cbv zeta.
  assert (Hith : ∀ i : nat, (Z.of_nat i < n)%Z →
    trace_points c n !! i =
    Some (getPointAt c
            (Math_min (offset_after (curve_length c / num_of_Z n) i (num_of_Z 0))
                      (curve_length c)))).
  { intros i Hi.
    by rewrite trace_points_queries, list_lookup_fmap,
      sampler_queries_lookup by done. }
  assert (Hcount : length (trace_points c n) = Z.to_nat n).
  { by rewrite trace_points_queries, length_fmap, sampler_queries_length. }
  split_and!.
  - intros fuel Hfuel. by apply trace_while_terminates.
  - exact Hcount.
  - exact Hith.
  - intros Hmin.
    assert (Hfirst : trace_points c n !! 0%nat = Some (getPointAt c (num_of_Z 0))).
    { rewrite (Hith 0%nat) by lia.
      change (offset_after (curve_length c / num_of_Z n) 0 (num_of_Z 0))
        with (num_of_Z 0 : F).
      by rewrite Hmin. }
    split; [exact Hfirst|]. intros ->. apply list_eq. intros [|i].
    + exact Hfirst.
    + transitivity (@None (option (Point F))); [|done].
      apply lookup_ge_None_2. rewrite Hcount. simpl. lia.
  - intros Hexact i. apply offset_after_exact.
  - intros P path. split; [done|].
    rewrite PathHelper_tracePath_segments by done.
    by rewrite trace_points_queries.
Qed.
End sampler_running_sum.

Section sampler_ordered.
Context {F : Type} `{Number F} `{Paper F} {Hordered : OrderedNumber F}.
Local Open Scope num_scope.

(** C10: over ordered arithmetic, for a path of non-negative length and an
    integer [numPoints >= 1], the distances handed to [getPointAt] are the
    [numPoints] entries of [sampler_queries] (the sampler's result is
    [getPointAt] mapped over them, for this path and for any curve of the
    same length), and each lies in [[0, path.length]]. *)
Theorem C10_sampler_queries_in_range (path : Path F) (numPoints : Z) :
  num_of_Z 0 ≤ curve_length path →
  (1 ≤ numPoints)%Z →
  let queries := sampler_queries (curve_length path) numPoints in
  PaperHelpers.tracePathAsPoints path numPoints = getPointAt path <$> queries ∧
  segments (PathHelper.tracePath path numPoints) =
    Segment_read <$> (getPointAt path <$> queries) ∧
  (∀ C (HC : Curvelike F C) (c : C),
     curve_length c = curve_length path →
     trace_points c numPoints = getPointAt c <$> queries) ∧
  length queries = Z.to_nat numPoints ∧
  Forall (λ d, num_of_Z 0 ≤ d ∧ d ≤ curve_length path) queries.
Proof.
  intros Hlen Hn. cbv zeta. split_and!.
  - apply trace_points_queries.
  - by apply PathHelper_tracePath_segments.
  - intros C HC c <-. apply trace_points_queries.
  - apply sampler_queries_length.
  - apply trace_queries_in_range; [done| |apply ord_refl].
    apply ord_div_nonneg; [done|lia].
Qed.

End sampler_ordered.

(** ** The warp composite *)

Section composite_facts.
Context {F : Type} `{Number F} `{Paper F} `{ChangeFlag}.
Import DualBoundsPathWarp.

Lemma Path_new_closed (segs : list (Segment F)) (cl : bool) cw :
  closed (Path_new segs cl cw) = cl.
Proof.
  unfold Path_new, Path_setClockwise. destruct cw as [value|]; [|done].
  by destruct (eqb _ _).
Qed.

Lemma Path_new_segments (segs : list (Segment F)) (cl value : bool) :
  segments (Path_new segs cl (Some value)) =
  if eqb (Path_orientation segs cl) value then segs
  else reverse (Segment_reversed <$> segs).
Proof.
  unfold Path_new, Path_setClockwise, clockwise. cbn [segments closed].
  by destruct (eqb _ _).
Qed.

Lemma Path_of_array_segments (segs : list (Segment F)) :
  segments (Path_of_array segs) =
  match segs with [] => [Segment_read None] | _ => segs end.
Proof. by destruct segs. Qed.

Lemma Path_of_array_nonempty (segs : list (Segment F)) :
  segs ≠ [] → segments (Path_of_array segs) = segs.
Proof. by destruct segs. Qed.

Lemma Segment_reversed_involutive (g : Segment F) :
  Segment_reversed (Segment_reversed g) = g.
Proof. by destruct g. Qed.

Lemma reverse_reversed_involutive (segs : list (Segment F)) :
  reverse (Segment_reversed <$> reverse (Segment_reversed <$> segs)) = segs.
Proof.
  rewrite fmap_reverse, reverse_involutive, <-list_fmap_compose.
  rewrite <-(list_fmap_id segs) at 2. apply list_fmap_ext.
  intros _ g _. apply Segment_reversed_involutive.
Qed.

Lemma updateWarped_Some (σ : Store F) (s : t F) src :
  σ !! _source s = Some src →
  updateWarped σ s =
  Some (set_warped
          (mkCompoundPath (warpPath src (_upper s) (_lower s) <$> children src)
             (cp_visible (_warped s))
             (cp_style (_warped s)) (cp_fillColor (_warped s)))
          s).
Proof. intros Hsrc. unfold updateWarped. by rewrite Hsrc. Qed.

Lemma updateWarped_inv (σ : Store F) (s s' : t F) :
  updateWarped σ s = Some s' →
  ∃ src, σ !! _source s = Some src ∧
    s' = set_warped
           (mkCompoundPath (warpPath src (_upper s) (_lower s) <$> children src)
              (cp_visible (_warped s))
              (cp_style (_warped s)) (cp_fillColor (_warped s)))
           s.
Proof.
  unfold updateWarped. destruct (σ !! _source s) as [src|] eqn:Hsrc; [|done].
  simpl. intros [= <-]. eauto.
Qed.

Lemma warpPath_full_warp (src : CompoundPath F) (upper lower : Path F) :
  full_warp src upper lower (warpPath src upper lower <$> children src).
Proof.
  split; [by rewrite length_fmap|].
  intros i path Hi. exists (warpPath src upper lower path).
  rewrite list_lookup_fmap, Hi. split; [done|].
  unfold warpPath, transformPoint. cbn [pointTransform].
  split; [apply Path_new_closed|]. cbv zeta. apply Path_new_segments.
Qed.











(** C8: setting the source to an object of the store makes it the
    composite's source and replaces the warped outline's children by the
    full warp of the new source between the current boundaries; the two
    boundaries, their segments and their lengths stay as they were. *)
Theorem C8_set_source_recomputes_warp (σ : Store F) (s : t F) (value : ref) src :
  σ !! value = Some src →
  ∃ s', set_source σ value s = Some s' ∧
    _source s' = value ∧
    full_warp src (_upper s) (_lower s) (children (_warped s')) ∧
    _upper s' = _upper s ∧ _lower s' = _lower s ∧
    segments (upper s') = segments (upper s) ∧
    segments (lower s') = segments (lower s) ∧
    curve_length (upper s') = curve_length (upper s) ∧
    curve_length (lower s') = curve_length (lower s).
Proof.
  intros Hsrc. unfold set_source.
  rewrite (updateWarped_Some _ _ src) by done.
  eexists; split; [done|]. cbn [_source _warped set_warped children].
  split; [done|]. split; [apply warpPath_full_warp|]. done.
Qed.

(** C9: reading the source of a composite whose source is an object of the
    store yields a new object with the source's value; every object the
    store held, the source among them, keeps its value, the composite is not
    touched, and whatever is later written to the returned object, the
    source keeps its value. *)
Theorem C9_source_returns_clone (σ : Store F) (s : t F) c :
  σ !! _source s = Some c →
  ∃ r σ', source σ s = Some (r, σ') ∧
    σ !! r = None ∧
    σ' !! r = Some c ∧
    r ≠ _source s ∧
    (∀ r0, r0 ≠ r → σ' !! r0 = σ !! r0) ∧
    σ' !! _source s = Some c ∧
    (∀ c', <[r := c']> σ' !! _source s = Some c).
Proof.
  intros Hsrc. unfold source, CompoundPath_clone. rewrite Hsrc.
  cbn [mbind option_bind].
  assert (Hfresh : σ !! fresh (dom σ) = None).
  { apply not_elem_of_dom, is_fresh. }
  assert (Hne : fresh (dom σ) ≠ _source s) by congruence.
  eexists _, _. split; [done|]. split_and!.
  - done.
  - by rewrite lookup_insert_eq.
  - done.
  - intros r0 Hr0. by rewrite lookup_insert_ne.
  - by rewrite lookup_insert_ne.
  - intros c'. by rewrite !lookup_insert_ne.
Qed.
End composite_facts.

(** ** The program at sample inputs *)

(** Four samples of the rectangle's outline, a quarter of the perimeter
    apart, starting at the first corner. *)
Example tracePathAsPoints_rect :
  coords <$> PaperHelpers.tracePathAsPoints rect_path 4 =
  [Some (0, 0); Some (60, 0); Some (100, 20); Some (40, 20)]%Q.
Proof. by vm_compute. Qed.

(** The same four samples warped into the band between [y = 0] and
    [y = 50] over boundaries of length 200: twice as wide, and as high as
    the band. *)
Example warpPoint_rect :
  coords <$>
    (DualBoundsPathWarp.warpPoint rect_source
       (DualBoundsPathWarp._upper warp0) (DualBoundsPathWarp._lower warp0) <$>
     PaperHelpers.tracePathAsPoints rect_path 4) =
  [Some (0, 0); Some (120, 0); Some (200, 50); Some (80, 50)]%Q.
Proof. by vm_compute. Qed.

(** A lower boundary without points: the projection falls back on the top
    point. *)
Example projection_degenerate :
  coords (PaperHelpers.dualBoundsPathProjection upper10 empty_curve
            (mkPoint (Q2Qc (3 # 4)) (qz 1))) = Some (15 # 2, 0)%Q.
Proof. by vm_compute. Qed.

(** The constructed composite holds one warped contour of 200 segments,
    closed and clockwise like the rectangle. *)
Example new_rect_warped :
  (λ cfg, (λ p : Path Qc, (length (segments p), closed p, clockwise p)) <$>
            children (DualBoundsPathWarp._warped cfg.2)) <$> cfg0 =
  Some [(200%nat, true, true)].
Proof. by vm_compute. Qed.

(** ** The theorems at sample inputs *)

Lemma C3_witness :
  let project := PaperHelpers.dualBoundsPathProjection upper10 lower20 in
  let tp := mkPoint (Q2Qc (1 # 2) * qz 10)%Qc (qz 0) in
  let bp := mkPoint (Q2Qc (1 # 2) * qz 20)%Qc (qz 5) in
  (project (mkPoint (qz 0) (qz 0)) = getPointAt upper10 (qz 0) ∧
   project (mkPoint (qz 0) (qz 1)) = getPointAt lower20 (qz 0)) ∧
  project (mkPoint (Q2Qc (1 # 2)) (qz 0)) = Some tp ∧
  project (mkPoint (Q2Qc (1 # 2)) (qz 1)) = Some bp ∧
  project (mkPoint (Q2Qc (1 # 2)) (qz 1 / qz 2)%Qc) =
    Some (PaperHelpers.midpoint tp bp).
Proof.
  cbv zeta.
  destruct (C3_projection_corners_and_affine upper10 lower20) as [_ Hexact].
  destruct (Hexact Qc_exact) as [Hcorner Hfixed].
  split.
  - apply Hcorner; by eexists.
  - destruct (Hfixed (Q2Qc (1 # 2))
                (mkPoint (Q2Qc (1 # 2) * qz 10)%Qc (qz 0))
                (mkPoint (Q2Qc (1 # 2) * qz 20)%Qc (qz 5))
                eq_refl eq_refl) as (Hv0 & Hv1 & Hhalf & _).
    split_and!; [exact Hv0|exact Hv1|exact Hhalf].
Defined.

(** On binary64 numbers, between a boundary at [x = 7/10] and one at
    [x = 1/10], the corner [(0, 1)] goes to
    [7/10 + (1/10 - 7/10) * 1], which is not [1/10]. *)
Lemma C3_counterexample :
  is_Some (getPointAt (tenths_curve 7) (float_of_Z 0)) ∧
  is_Some (getPointAt (tenths_curve 1) (float_of_Z 0)) ∧
  PaperHelpers.dualBoundsPathProjection (tenths_curve 7) (tenths_curve 1)
    (mkPoint (float_of_Z 0) (float_of_Z 1)) ≠
  getPointAt (tenths_curve 1) (float_of_Z 0).
Proof.
  split_and!; [by eexists..|].
  intros Heq.
  apply (f_equal (λ o : option (Point PrimFloat.float),
                    match o with Some p => x p | None => PrimFloat.zero end))
    in Heq.
  vm_compute in Heq.
  match type of Heq with
  | ?a = _ => apply (f_equal (PrimFloat.eqb a)) in Heq
  end.
  vm_compute in Heq. discriminate Heq.
Qed.

Lemma C2_witness :
  let step := (curve_length unit_line / num_of_Z 10)%num in
  let points := trace_points unit_line 10 in
  (1 ≤ 10)%Z ∧
  length points = 10%nat ∧
  points !! 8%nat =
    Some (getPointAt unit_line
            (Math_min (offset_after step 8 (num_of_Z 0))
                      (curve_length unit_line))) ∧
  points !! 0%nat = Some (getPointAt unit_line (num_of_Z 0)).
Proof.
  cbv zeta.
  assert (Hn : (1 ≤ 10)%Z) by lia.
  assert (Hmin : Math_min (num_of_Z 0) (curve_length unit_line) =
                 (num_of_Z 0 : PrimFloat.float)) by (vm_compute; reflexivity).
  destruct (C2_sampler_points unit_line 10 Hn)
    as (_ & Hcount & Hith & Hfirst & _).
  split_and!; [exact Hn|exact Hcount| |exact (proj1 (Hfirst Hmin))].
  apply (Hith 8%nat). lia.
Defined.

(** On binary64 numbers, sampling the segment of length 1 with ten points:
    the ninth query is the running sum of eight steps of [1/10], which is
    not [8 * (1/10)]. *)
Lemma C2_counterexample :
  (1 ≤ 10)%Z ∧
  (num_of_Z 0 ≤ curve_length unit_line)%num ∧
  trace_points unit_line 10 !! 8%nat ≠
  Some (getPointAt unit_line
          (Math_min (num_of_Z 8 * (curve_length unit_line / num_of_Z 10))
                    (curve_length unit_line))%num).
Proof.
  split_and!; [lia|by vm_compute|].
  intros Heq.
  apply (f_equal (λ o : option (option (Point PrimFloat.float)),
                    match o with
                    | Some (Some p) => x p
                    | _ => PrimFloat.zero
                    end)) in Heq.
  vm_compute in Heq.
  match type of Heq with
  | ?a = _ => apply (f_equal (PrimFloat.eqb a)) in Heq
  end.
  vm_compute in Heq. discriminate Heq.
Qed.

Lemma C10_witness :
  (qz 0 ≤ curve_length rect_path)%Qc ∧ (1 ≤ 4)%Z ∧
  length (sampler_queries (curve_length rect_path) 4) = 4%nat ∧
  Forall (λ d, (qz 0 ≤ d)%Qc ∧ (d ≤ curve_length rect_path)%Qc)
    (sampler_queries (curve_length rect_path) 4).
Proof.
  assert (Hn : (1 ≤ 4)%Z) by lia.
  assert (Hlen : (num_of_Z 0 ≤ curve_length rect_path)%num) by (by vm_compute).
  destruct (C10_sampler_queries_in_range rect_path 4 Hlen Hn)
    as (_ & _ & _ & Hcount & Hrange).
  split_and!; [exact Hlen|exact Hn|exact Hcount|exact Hrange].
Defined.

Lemma C7_witness :
  PaperHelpers.traceCompoundPath
    (mkCompoundPath ([] : list (Path Qc)) true None None) 200 = None.
Proof.
  apply (C7_empty_compound_yields_null
           (mkCompoundPath ([] : list (Path Qc)) true None None) 200).
  reflexivity.
Defined.




Lemma C8_witness :
  ∃ s', DualBoundsPathWarp.set_source store2 2%positive warp0 = Some s' ∧
    DualBoundsPathWarp._source warp0 = 1%positive ∧
    DualBoundsPathWarp._source s' = 2%positive ∧
    length (children (DualBoundsPathWarp._warped s')) = 1%nat ∧
    DualBoundsPathWarp._upper s' = DualBoundsPathWarp._upper warp0 ∧
    DualBoundsPathWarp._lower s' = DualBoundsPathWarp._lower warp0.
Proof.
  destruct (C8_set_source_recomputes_warp store2 warp0 2%positive ccw_source
              eq_refl) as (s' & Hset & Hsrc & [Hcount _] & Hu & Hl & _).
  exists s'.
  split_and!; [exact Hset|reflexivity|exact Hsrc|exact Hcount|exact Hu|exact Hl].
Defined.

Lemma C9_witness :
  ∃ r σ', DualBoundsPathWarp.source store0 warp0 = Some (r, σ') ∧
    r ≠ 1%positive ∧ σ' !! r = Some rect_source ∧
    ∀ c', <[r := c']> σ' !! 1%positive = Some rect_source.
Proof.
  destruct (C9_source_returns_clone store0 warp0 rect_source eq_refl)
    as (r & σ' & Hget & _ & Hr & Hne & _ & _ & Hmut).
  exists r, σ'. split_and!; [exact Hget|exact Hne|exact Hr|exact Hmut].
Defined.

Lemma cfg0_built : is_Some cfg0.
Proof. vm_compute. by eexists. Qed.


(** * Further properties *)

(** ** The sampler at its edges *)

Section sampler_edges.
Context {F : Type} `{Number F} `{Paper F}.
Local Open Scope num_scope.

Lemma sampler_queries_nonpositive (pathLength : F) (numPoints : Z) :
  (numPoints ≤ 0)%Z → sampler_queries pathLength numPoints = [].
Proof.
  intros Hn. unfold sampler_queries, trace_fuel. cbn [trace_queries].
  destruct (Z.ltb_spec 0 numPoints); [lia|done].
Qed.

(** X1: with a point count of zero or less the loop body never runs: the
    sampler returns no point and asks the path for none; the path traced
    by [PaperHelpers.tracePath] is a closed path without segments, and the
    open path the older [PathHelper.tracePath] makes of the empty array of
    points holds one segment, the one the library reads from nothing. *)
Theorem sampler_nonpositive_count_is_empty (path : Path F) (numPoints : Z) :
  (numPoints ≤ 0)%Z →
  PaperHelpers.tracePathAsPoints path numPoints = [] ∧
  sampler_queries (curve_length path) numPoints = [] ∧
  segments (PaperHelpers.tracePath path numPoints) = [] ∧
  closed (PaperHelpers.tracePath path numPoints) = true ∧
  segments (PathHelper.tracePath path numPoints) = [Segment_read None] ∧
  closed (PathHelper.tracePath path numPoints) = false.
Proof.
  intros Hn.
  assert (Hpoints : trace_points path numPoints = []).
  { by rewrite trace_points_queries, sampler_queries_nonpositive. }
  split_and!.
  - exact Hpoints.
  - by apply sampler_queries_nonpositive.
  - unfold PaperHelpers.tracePath, PaperHelpers.tracePathAsPoints.
    rewrite Path_new_segments, Hpoints. by destruct (eqb _ _).
  - apply Path_new_closed.
  - unfold PathHelper.tracePath. by rewrite Hpoints.
  - unfold PathHelper.tracePath. by rewrite Hpoints.
Qed.

Lemma CompoundPath_new_children (paths : list (Path F)) value fill :
  children (CompoundPath_new paths value fill) =
  if eqb (CompoundPath_orientation paths) value then paths
  else Path_reverse <$> paths.
Proof.
  unfold CompoundPath_new, CompoundPath_setClockwise, cp_clockwise.
  cbn [children]. by destruct (eqb _ _).
Qed.

Lemma tracePath_segments (path : Path F) (numPoints : Z) :
  let samples :=
    Segment_read <$> PaperHelpers.tracePathAsPoints path numPoints in
  segments (PaperHelpers.tracePath path numPoints) = samples ∨
  segments (PaperHelpers.tracePath path numPoints) =
    reverse (Segment_reversed <$> samples).
Proof.
  cbv zeta. unfold PaperHelpers.tracePath. rewrite Path_new_segments.
  destruct (eqb _ _); [by left|by right].
Qed.

Lemma samples_length (path : Path F) (numPoints : Z) :
  length (Segment_read <$> PaperHelpers.tracePathAsPoints path numPoints) =
  Z.to_nat numPoints.
Proof.
  unfold PaperHelpers.tracePathAsPoints.
  by rewrite length_fmap, trace_points_queries, length_fmap,
    sampler_queries_length.
Qed.

(** X2: [traceCompoundPath] answers [null] exactly for a compound path
    without children; otherwise it returns a compound path with one
    traced child per child, in order: the traced children as [tracePath]
    makes them where together they read the orientation of the compound
    path, and each of them reversed where they do not.  Each traced child
    is closed and holds [pointsPerPath] segments, the samples of its child
    in sampling order or in reverse. *)
Theorem traceCompoundPath_shape (path : CompoundPath F) (pointsPerPath : Z) :
  (PaperHelpers.traceCompoundPath path pointsPerPath = None ↔ children path = []) ∧
  (children path ≠ [] →
   ∃ traced,
     PaperHelpers.traceCompoundPath path pointsPerPath = Some traced ∧
     let paths :=
       (λ p, PaperHelpers.tracePath p pointsPerPath) <$> children path in
     (CompoundPath_orientation paths = cp_clockwise path →
        children traced = paths) ∧
     (CompoundPath_orientation paths ≠ cp_clockwise path →
        children traced = Path_reverse <$> paths) ∧
     length (children traced) = length (children path) ∧
     ∀ i child, children path !! i = Some child →
       ∃ tracedChild, children traced !! i = Some tracedChild ∧
         closed tracedChild = true ∧
         length (segments tracedChild) = Z.to_nat pointsPerPath ∧
         let samples :=
           Segment_read <$> PaperHelpers.tracePathAsPoints child pointsPerPath in
         (segments tracedChild = samples ∨
          segments tracedChild = reverse (Segment_reversed <$> samples))).
Proof.
  unfold PaperHelpers.traceCompoundPath.
  destruct (children path) as [|c cs] eqn:Hch.
  - split; [done|]. by intros [].
  - cbn [length]. destruct (decide (S (length cs) = 0)) as [?|_]; [lia|].
    split; [split; intros; discriminate|]. intros _. eexists. split; [done|].
    cbv zeta. rewrite <-Hch. cbn [children].
    remember ((λ p, PaperHelpers.tracePath p pointsPerPath) <$> children path)
      as paths eqn:Hpaths.
    rewrite CompoundPath_new_children.
    destruct (eqb (CompoundPath_orientation paths) (cp_clockwise path))
      eqn:Heqb.
    + apply eqb_prop in Heqb.
      split_and!; [done|done|by rewrite Hpaths, length_fmap, Hch|].
      intros i child Hi. eexists.
      rewrite Hpaths, list_lookup_fmap, Hi. split; [done|].
      split; [apply Path_new_closed|].
      destruct (tracePath_segments child pointsPerPath) as [Hs|Hs];
        rewrite Hs.
      * split; [apply samples_length|by left].
      * split; [|by right].
        by rewrite length_reverse, length_fmap, samples_length.
    + apply eqb_false_iff in Heqb.
      split_and!; [done|done|by rewrite Hpaths, !length_fmap, Hch|].
      intros i child Hi. eexists.
      rewrite Hpaths, !list_lookup_fmap, Hi. split; [done|].
      cbn [Path_reverse closed segments].
      split; [apply Path_new_closed|].
      destruct (tracePath_segments child pointsPerPath) as [Hs|Hs];
        rewrite Hs.
      * split; [|by right].
        by rewrite length_reverse, length_fmap, samples_length.
      * rewrite reverse_reversed_involutive.
        split; [apply samples_length|by left].
Qed.

End sampler_edges.

Section sampler_order.
Context {F : Type} `{Number F} `{Paper F}.
Context {Hordered : OrderedNumber F} {Hmono : MonotoneNumber F}.
Local Open Scope num_scope.

Lemma Math_min_mono_l (a b c : F) : a ≤ b → Math_min a c ≤ Math_min b c.
Proof.
  intros Hab. destruct (ord_total a c) as [Hac|Hca].
  - rewrite (ord_min_l a c) by done.
    destruct (ord_total b c) as [Hbc|Hcb].
    + by rewrite ord_min_l.
    + by rewrite ord_min_r.
  - rewrite (ord_min_r a c) by done.
    rewrite (ord_min_r b c) by (by eapply ord_trans).
    apply ord_refl.
Qed.

Lemma trace_queries_monotone numPoints (pathLength offsetIncr : F) fuel :
  num_of_Z 0 ≤ offsetIncr →
  ∀ i offset (k : nat) d d',
    trace_queries fuel numPoints pathLength offsetIncr i offset !! k = Some d →
    trace_queries fuel numPoints pathLength offsetIncr i offset !! S k = Some d' →
    d ≤ d'.
Proof.
  intros Hincr. induction fuel as [|fuel IH]; intros i offset k d d'; [done|].
  cbn [trace_queries]. destruct (i <? numPoints)%Z; [|done].
  destruct k as [|k].
  - cbn [lookup list_lookup]. intros [= <-].
    destruct fuel as [|fuel]; [done|]. cbn [trace_queries].
    destruct (i + 1 <? numPoints)%Z; [|done]. intros [= <-].
    apply Math_min_mono_l. by apply ord_add_increases.
  - intros Hd Hd'. by eapply (IH _ _ k).
Qed.

(** X3: over ordered arithmetic in which adding a non-negative number does
    not decrease, for a path of non-negative length and a count of at least
    one, the distances at which the sampler queries the path never
    decrease from one sample to the next. *)
Theorem sampler_queries_nondecreasing (path : Path F) (numPoints : Z)
    (k : nat) (d d' : F) :
  num_of_Z 0 ≤ curve_length path →
  (1 ≤ numPoints)%Z →
  sampler_queries (curve_length path) numPoints !! k = Some d →
  sampler_queries (curve_length path) numPoints !! S k = Some d' →
  PaperHelpers.tracePathAsPoints path numPoints !! k = Some (getPointAt path d) ∧
  PaperHelpers.tracePathAsPoints path numPoints !! S k = Some (getPointAt path d') ∧
  d ≤ d'.
Proof.
  intros Hlen Hn Hd Hd'. unfold PaperHelpers.tracePathAsPoints.
  rewrite trace_points_queries, !list_lookup_fmap, Hd, Hd'.
  split_and!; [done..|].
  eapply trace_queries_monotone; [|exact Hd|exact Hd'].
  apply ord_div_nonneg; [done|lia].
Qed.
End sampler_order.

Section sampler_degenerate.
Context {F : Type} `{Number F} `{Paper F}.
Context {Hexact : ExactNumber F} {Hordered : OrderedNumber F}.
Local Open Scope num_scope.

Add Field num_field_degenerate : (exact_field (F := F)).

Lemma offset_after_zero (k : nat) :
  offset_after (num_of_Z 0 : F) k (num_of_Z 0) = num_of_Z 0.
Proof.
  induction k as [|k IH]; [done|].
  change (offset_after (num_of_Z 0 : F) (S k) (num_of_Z 0))
    with (offset_after (num_of_Z 0 : F) k (num_of_Z 0) + num_of_Z 0).
  rewrite IH. ring.
Qed.

(** X4: over exact, ordered arithmetic, a path of length zero sampled with
    a count of at least one yields that many copies of the one point
    [path.getPointAt(0)]. *)
Theorem sampler_zero_length_path (path : Path F) (numPoints : Z) :
  curve_length path = num_of_Z 0 →
  (1 ≤ numPoints)%Z →
  PaperHelpers.tracePathAsPoints path numPoints =
  replicate (Z.to_nat numPoints) (getPointAt path (num_of_Z 0)).
Proof.
  intros Hlen Hn. unfold PaperHelpers.tracePathAsPoints.
  rewrite trace_points_queries, Hlen.
  assert (Hstep : (num_of_Z 0 / num_of_Z numPoints : F) = num_of_Z 0).
  { rewrite (Fdiv_def exact_field). ring. }
  apply list_eq. intros k.
  destruct (decide (k < Z.to_nat numPoints)%nat) as [Hk|Hk].
  - rewrite list_lookup_fmap, sampler_queries_lookup by lia.
    rewrite Hstep, offset_after_zero, lookup_replicate_2 by done.
    cbn [fmap option_fmap option_map].
    by rewrite ord_min_l by apply ord_refl.
  - rewrite !(lookup_ge_None_2); [done| |].
    + rewrite length_replicate. lia.
    + rewrite length_fmap, sampler_queries_length. lia.
Qed.
End sampler_degenerate.

(** ** Points, corners and the projection *)

Section projection_exact.
Context {F C : Type} `{Number F} {Hexact : ExactNumber F} `{Curvelike F C}.
Local Open Scope num_scope.

Add Field num_field_projection : (exact_field (F := F)).

Lemma num_lerp_same (t v : F) : t + (t - t) * v = t.
Proof. ring. Qed.

(** X6: over exact arithmetic, where the two boundaries give the same point
    for a position [u] along the band, the projection is that point for
    every [v]. *)
Theorem projection_collapsed_band (upper lower : C) (u : F) (p : Point F) :
  getPointAt upper (u * curve_length upper) = Some p →
  getPointAt lower (u * curve_length lower) = Some p →
  ∀ v, PaperHelpers.dualBoundsPathProjection upper lower (mkPoint u v) = Some p.
Proof.
  intros Hu Hl v. unfold PaperHelpers.dualBoundsPathProjection.
  cbn [x y]. rewrite Hu, Hl. destruct p as [px py].
  unfold Point.add, Point.multiply, Point.subtract. cbn [x y].
  by rewrite !num_lerp_same.
Qed.
End projection_exact.


(** ** The composite: construction, recomputation, invariants *)

Section composite_more.
Context {F : Type} `{Number F} `{Paper F} `{ChangeFlag}.
Import DualBoundsPathWarp.

Lemma updateWarped_idempotent (σ : Store F) (s s1 : t F) :
  updateWarped σ s = Some s1 → updateWarped σ s1 = Some s1.
Proof.
  intros Hw. apply updateWarped_inv in Hw as (src & Hsrc & ->).
  by rewrite (updateWarped_Some _ _ src).
Qed.

Lemma groupWatch_id flags (s : t F) :
  Z.land flags ATTRIBUTE = 0%Z → groupWatch flags s = s.
Proof.
  intros Hflags. unfold groupWatch, has_flag. by rewrite Hflags.
Qed.

(** X8: where the [GEOMETRY] and [ATTRIBUTE] bits are distinct, a second
    boundary notification carrying [SEGMENTS], with nothing edited in
    between, succeeds and leaves the outline, the warped outline and both
    boundaries exactly as the first left them; only one more [GEOMETRY]
    notification is emitted. *)
Theorem boundsWatch_twice_same_geometry (σ : Store F) (flags : Z) (s s1 : t F) :
  Z.land GEOMETRY ATTRIBUTE = 0%Z →
  Z.land flags SEGMENTS ≠ 0%Z →
  boundsWatch σ flags s = Some s1 →
  ∃ s2, boundsWatch σ flags s1 = Some s2 ∧
    _outline s2 = _outline s1 ∧
    _warped s2 = _warped s1 ∧
    _upper s2 = _upper s1 ∧ _lower s2 = _lower s1 ∧
    emitted s2 = emitted s1 ++ [GEOMETRY].
Proof.
  intros Hbits Hflags. unfold boundsWatch, has_flag.
  destruct (Z.eqb_spec (Z.land flags SEGMENTS) 0) as [?|_]; [done|].
  cbn [negb].
  destruct (updateWarped σ (updateOutlineShape s)) as [s'|] eqn:Hw; [|done].
  cbn [mbind option_bind]. intros [= <-].
  apply updateWarped_inv in Hw as (src & Hsrc & ->).
  unfold _changed. rewrite !groupWatch_id by done.
  cbn [_source updateOutlineShape set_outline set_warped] in Hsrc.
  rewrite (updateWarped_Some _ _ src) by done.
  cbn [mbind option_bind]. rewrite groupWatch_id by done.
  eexists. split; [done|]. done.
Qed.

Lemma new_inv (σ : Store F) source bounds style σ' (s : t F) :
  new σ source bounds style = Some (σ', s) →
  ∃ src upper0 lower0,
    σ !! source = Some src ∧
    σ' = <[source := mkCompoundPath (children src) false
                       (cp_style src) (cp_fillColor src)]> σ ∧
    (upper0, lower0) =
      match bounds with
      | Some (u, l) => (u, l)
      | None =>
          let b := CompoundPath_bounds
                     (mkCompoundPath (children src) false
                        (cp_style src) (cp_fillColor src)) in
          ([Segment_read (Some (topLeft b));
            Segment_read (Some (Rectangle_topRight b))],
           [Segment_read (Some (Rectangle_bottomLeft b));
            Segment_read (Some (Rectangle_bottomRight b))])
      end ∧
    _source s = source ∧
    segments (_upper s) = upper0 ∧ segments (_lower s) = lower0 ∧
    closed (_upper s) = false ∧ closed (_lower s) = false ∧
    visible (_upper s) = false ∧ visible (_lower s) = false ∧
    selected s = false ∧ emitted s = [] ∧
    segments (_outline s) =
      upper0 ++ reverse (Segment_reversed <$> segments (Path_of_array lower0)) ∧
    closed (_outline s) = true ∧
    children (_warped s) =
      warpPath (mkCompoundPath (children src) false
                  (cp_style src) (cp_fillColor src))
               (_upper s) (_lower s) <$> children src ∧
    _customStyle s = default (mkStyle (Some "lightgray") None) style ∧
    cp_style (_warped s) = Some (_customStyle s) ∧
    fillColor (_outline s) =
      (if truthy (backgroundColor (_customStyle s))
       then backgroundColor (_customStyle s) else Some "white") ∧
    opacity (_outline s) =
      (if truthy (backgroundColor (_customStyle s))
       then num_of_Z 1 else num_of_Z 0).
Proof.
  unfold new. destruct (σ !! source) as [src|] eqn:Hsrc; [|done].
  cbn [mbind option_bind]. intros Hnew. exists src.
  destruct bounds as [[u l]|].
  - exists u, l. revert Hnew.
    match goal with |- context [updateWarped ?σ1 ?s0] =>
      rewrite (updateWarped_Some σ1 s0 _ (lookup_insert_eq _ _ _))
    end.
    cbn [mbind option_bind]. intros [= <- <-].
    unfold set_customStyle.
    destruct (truthy (backgroundColor (default _ style))) eqn:Hbg;
      cbn; rewrite ?Hbg; split_and!; done.
  - eexists _, _. revert Hnew.
    match goal with |- context [updateWarped ?σ1 ?s0] =>
      rewrite (updateWarped_Some σ1 s0 _ (lookup_insert_eq _ _ _))
    end.
    cbn [mbind option_bind]. intros [= <- <-].
    unfold set_customStyle.
    destruct (truthy (backgroundColor (default _ style))) eqn:Hbg;
      cbn; rewrite ?Hbg; split_and!; done.
Qed.

(** X9: the constructor fails exactly when the source is [null].  When it
    succeeds, the source object is hidden, with the children it had, and no
    other object of the store is touched; explicit boundaries are taken as
    given; both boundaries are open and hidden and the composite is not
    selected; nothing has been emitted; the outline is closed and made of
    the upper segments followed by the reversed segments of a path made of
    the lower segments (the lower segments themselves when there are any,
    the one segment the library reads from nothing when there are none);
    the warped outline holds the full warp of the hidden source. *)
Theorem new_contract (σ : Store F) (source : ref)
    (bounds : option (list (Segment F) * list (Segment F)))
    (style : option SketchItemStyle) :
  (new σ source bounds style = None ↔ σ !! source = None) ∧
  (∀ σ' s, new σ source bounds style = Some (σ', s) →
     ∃ src src',
       σ !! source = Some src ∧ σ' !! source = Some src' ∧
       children src' = children src ∧ cp_visible src' = false ∧
       (∀ r, r ≠ source → σ' !! r = σ !! r) ∧
       _source s = source ∧
       (∀ u l, bounds = Some (u, l) →
          segments (_upper s) = u ∧ segments (_lower s) = l) ∧
       closed (_upper s) = false ∧ closed (_lower s) = false ∧
       visible (_upper s) = false ∧ visible (_lower s) = false ∧
       selected s = false ∧ emitted s = [] ∧
       closed (_outline s) = true ∧
       (segments (_lower s) ≠ [] →
          segments (_outline s) =
            segments (_upper s) ++
            reverse (Segment_reversed <$> segments (_lower s))) ∧
       (segments (_lower s) = [] →
          segments (_outline s) =
            segments (_upper s) ++ [Segment_reversed (Segment_read None)]) ∧
       full_warp src' (_upper s) (_lower s) (children (_warped s))).
Proof.
  split.
  - unfold new. destruct (σ !! source) as [src|] eqn:Hsrc; [|done].
    cbn [mbind option_bind]. split; [|done].
    destruct bounds as [[u l]|];
      match goal with |- context [updateWarped ?σ1 ?s0] =>
        rewrite (updateWarped_Some σ1 s0 _ (lookup_insert_eq _ _ _))
      end; done.
  - intros σ' s Hnew.
    apply new_inv in Hnew as (src & upper0 & lower0 & Hsrc & -> & Hb & Hs &
      Hu & Hl & Hcu & Hcl & Hvu & Hvl & Hsel & Hem & Ho & Hco & Hw & _).
    exists src. eexists. split; [done|]. rewrite lookup_insert_eq.
    split; [done|]. cbn [children cp_visible].
    split_and!; try done.
    + intros r Hr. by rewrite lookup_insert_ne.
    + intros u l ->. by injection Hb as -> ->.
    + intros Hne. rewrite Ho, Hu, Hl.
      rewrite Path_of_array_nonempty; [done|]. by rewrite <-Hl.
    + intros Hempty. rewrite Ho, Hu. rewrite Hl in Hempty. by rewrite Hempty.
    + rewrite Hw.
      exact (warpPath_full_warp
               (mkCompoundPath (children src) false (cp_style src)
                  (cp_fillColor src)) _ _).
Qed.

(** X10: when the constructor is given no boundaries and the library
    anchors a segment made from a point at that point, the anchors of the
    upper boundary are the top corners of the hidden source's bounding box,
    those of the lower boundary the bottom corners, and the anchors of the
    outline are the four [corners] of that box, clockwise from top-left. *)
Theorem new_default_outline_is_bounding_box (σ σ' : Store F) (source : ref)
    (style : option SketchItemStyle) (s : t F) :
  (∀ p : Point F, point (Segment_read (Some p)) = p) →
  new σ source None style = Some (σ', s) →
  ∃ src', σ' !! source = Some src' ∧
    let box := CompoundPath_bounds src' in
    point <$> segments (_upper s) = [topLeft box; Rectangle_topRight box] ∧
    point <$> segments (_lower s) =
      [Rectangle_bottomLeft box; Rectangle_bottomRight box] ∧
    point <$> segments (_outline s) = corners box.
Proof.
  intros Hanchor Hnew.
  apply new_inv in Hnew as (src & upper0 & lower0 & Hsrc & -> & Hb & Hs &
    Hu & Hl & _ & _ & _ & _ & _ & _ & Ho & _).
  injection Hb as -> ->.
  eexists. rewrite lookup_insert_eq. split; [done|]. cbv zeta.
  rewrite Ho, Hu, Hl, Path_of_array_segments. unfold corners.
  cbn [fmap list_fmap app reverse rev_append Segment_reversed point].
  by rewrite !Hanchor.
Qed.

Lemma boundsWatch_cases (σ : Store F) flags (s s' : t F) :
  boundsWatch σ flags s = Some s' →
  s' = s ∨
  ∃ src, σ !! _source s = Some src ∧
    s' = _changed GEOMETRY
           (set_warped
              (mkCompoundPath
                 (warpPath src (_upper s) (_lower s) <$> children src)
                 (cp_visible (_warped s))
                 (cp_style (_warped s)) (cp_fillColor (_warped s)))
              (updateOutlineShape s)).
Proof.
  unfold boundsWatch. destruct (has_flag flags SEGMENTS).
  - destruct (updateWarped σ (updateOutlineShape s)) as [s1|] eqn:Hw; [|done].
    cbn [mbind option_bind]. intros [= <-]. right.
    apply updateWarped_inv in Hw as (src & Hsrc & ->). by exists src.
  - intros [= <-]. by left.
Qed.

Lemma groupWatch_boundaries flags (s : t F) :
  boundaries_agree s → boundaries_agree (groupWatch flags s).
Proof.
  unfold boundaries_agree, groupWatch.
  destruct (has_flag flags ATTRIBUTE); [|done].
  by destruct (negb _).
Qed.

Lemma groupWatch_style flags (s : t F) :
  style_applied s → style_applied (groupWatch flags s).
Proof.
  unfold style_applied, groupWatch.
  destruct (has_flag flags ATTRIBUTE); [|done].
  by destruct (negb _).
Qed.

Lemma step_boundaries_style cfg cfg' :
  step cfg cfg' →
  boundaries_agree cfg.2 ∧ style_applied cfg.2 →
  boundaries_agree cfg'.2 ∧ style_applied cfg'.2.
Proof.
  intros Hstep [Hb Hs]. destruct Hstep as
    [σ s b segs|σ s b flags s' Hn|σ s value s' Hset|σ s r σ' Hget|σ s value
    |σ s b flags|σ s r c]; cbn [snd] in *.
  - by destruct b.
  - assert (Hw : boundsWatch σ flags s = Some s') by (by destruct b).
    apply boundsWatch_cases in Hw as [->|(src & _ & ->)]; [done|].
    unfold _changed. split.
    + by apply groupWatch_boundaries.
    + by apply groupWatch_style.
  - apply updateWarped_inv in Hset as (src & _ & ->). done.
  - done.
  - split; [done|]. unfold style_applied, set_customStyle.
    by destruct (truthy (backgroundColor value)) eqn:Hbg; cbn; rewrite ?Hbg.
  - unfold _changed. split.
    + by apply groupWatch_boundaries.
    + by apply groupWatch_style.
  - done.
Qed.

Lemma reachable_boundaries_style cfg :
  reachable cfg → boundaries_agree cfg.2 ∧ style_applied cfg.2.
Proof.
  induction 1 as [σ source bounds style [σ' s] Hnew|cfg cfg' _ IH Hstep].
  - apply new_inv in Hnew as (src & upper0 & lower0 & _ & _ & _ & _ &
      _ & _ & _ & _ & Hvu & Hvl & _ & _ & _ & _ & _ & Hst & Hcs & Hf & Hop).
    split; [unfold boundaries_agree; cbn [snd]; congruence|].
    unfold style_applied. cbn [snd]. done.
  - by eapply step_boundaries_style.
Qed.

(** X11: in every state a composite can reach, the two boundaries are
    either both visible or both hidden; and once the group has notified a
    change whose flags carry [ATTRIBUTE], both are visible exactly when the
    composite is selected, while segments, outline and warped outline are
    as before. *)
Theorem boundaries_shown_together (σ : Store F) (s : t F) (flags : Z) :
  reachable (σ, s) →
  visible (_upper s) = visible (_lower s) ∧
  (Z.land flags ATTRIBUTE ≠ 0%Z →
   visible (_upper (_changed flags s)) = selected s ∧
   visible (_lower (_changed flags s)) = selected s ∧
   segments (_upper (_changed flags s)) = segments (_upper s) ∧
   segments (_lower (_changed flags s)) = segments (_lower s) ∧
   _outline (_changed flags s) = _outline s ∧
   _warped (_changed flags s) = _warped s).
Proof.
  intros Hreach.
  destruct (reachable_boundaries_style _ Hreach) as [Hagree _].
  unfold boundaries_agree in Hagree. cbn [snd] in Hagree.
  split; [done|]. intros Hflags.
  unfold _changed, groupWatch, has_flag.
  destruct (Z.eqb_spec (Z.land flags ATTRIBUTE) 0) as [?|_]; [done|].
  cbn [negb _upper selected].
  destruct (visible (_upper s)) eqn:Hu, (selected s) eqn:Hsel;
    cbn; rewrite <-?Hagree, ?Hu; done.
Qed.

(** X12: in every state a composite can reach, the warped outline carries
    the composite's current style, and the outline's fill is the style's
    background colour at opacity 1 when there is one, white at opacity 0
    otherwise. *)
Theorem derived_items_carry_style (σ : Store F) (s : t F) :
  reachable (σ, s) →
  cp_style (_warped s) = Some (customStyle s) ∧
  (truthy (backgroundColor (customStyle s)) = true →
     fillColor (_outline s) = backgroundColor (customStyle s) ∧
     opacity (_outline s) = num_of_Z 1) ∧
  (truthy (backgroundColor (customStyle s)) = false →
     fillColor (_outline s) = Some "white" ∧
     opacity (_outline s) = num_of_Z 0).
Proof.
  intros Hreach.
  destruct (reachable_boundaries_style _ Hreach) as [_ (Hst & Hfill & Hop)].
  cbn [snd] in *. unfold customStyle. split; [done|].
  split; intros Hbg; rewrite Hbg in Hfill, Hop; done.
Qed.
End composite_more.


(** ** Unit offsets *)

Lemma Qc_eq_this (a b : Qc) : a = b ↔ (this a == this b)%Q.
Proof. split; [by intros ->|apply Qc_is_canon]. Qed.

Lemma this_qz (z : Z) : (this (qz z) == inject_Z z)%Q.
Proof. unfold qz. cbn [this Q2Qc]. apply Qred_correct. Qed.

Lemma this_plus (a b : Qc) : (this (a + b)%Qc == this a + this b)%Q.
Proof. cbn [this Qcplus Q2Qc]. apply Qred_correct. Qed.

Lemma this_minus (a b : Qc) : (this (a - b)%Qc == this a - this b)%Q.
Proof.
  unfold Qcminus, Qcopp. cbn [this Qcplus Q2Qc].
  rewrite !Qred_correct. reflexivity.
Qed.

Lemma this_one : (this 1%Qc == 1)%Q.
Proof. reflexivity. Qed.

Lemma this_zero : (this 0%Qc == 0)%Q.
Proof. reflexivity. Qed.

Lemma number_rem_1 (a : Qc) : number_rem a 1 = (a - qz (Qc_truncate a))%Qc.
Proof.
  unfold number_rem. replace (a / 1)%Qc with a by (by field). ring.
Qed.

(** Orders and equations on [Qc] read on the underlying fractions. *)
Ltac qc_to_q :=
  unfold Qcle, Qclt in *;
  rewrite ?Qc_eq_this;
  repeat (rewrite this_plus || rewrite this_minus || rewrite this_qz);
  cbn [this Q2Qc] in *;
  repeat match goal with
         | H : context [Qred _] |- _ => rewrite Qred_correct in H
         end;
  rewrite ?Qred_correct.

Lemma Qfloor_unique (a : Q) (z : Z) :
  (inject_Z z <= a)%Q → (a < inject_Z z + 1)%Q → Qfloor a = z.
Proof.
  intros Hle Hlt.
  pose proof (Qfloor_le a) as Hf1. pose proof (Qlt_floor a) as Hf2.
  rewrite inject_Z_plus in Hf2. change (inject_Z 1) with 1%Q in Hf2.
  assert (H1 : (inject_Z z < inject_Z (Qfloor a + 1))%Q).
  { rewrite inject_Z_plus. change (inject_Z 1) with 1%Q. lra. }
  assert (H2 : (inject_Z (Qfloor a) < inject_Z (z + 1))%Q).
  { rewrite inject_Z_plus. change (inject_Z 1) with 1%Q. lra. }
  rewrite <-Zlt_Qlt in H1, H2. lia.
Qed.

Lemma Qceiling_unique (a : Q) (z : Z) :
  (inject_Z z - 1 < a)%Q → (a <= inject_Z z)%Q → Qceiling a = z.
Proof.
  intros Hlt Hle. unfold Qceiling.
  rewrite (Qfloor_unique (- a) (- z)); [lia| |]; rewrite inject_Z_opp; lra.
Qed.

(** The remainder by one of a number in [(-1, 1)] is the number. *)
Lemma number_rem_1_small (a : Qc) :
  (Q2Qc (-1) < a)%Qc → (a < 1)%Qc → number_rem a 1 = a.
Proof.
  intros Hlo Hhi. rewrite number_rem_1. unfold Qc_truncate.
  destruct (decide (0 ≤ a)%Qc) as [Hpos|Hneg].
  - qc_to_q. rewrite (Qfloor_unique a 0) by (change (inject_Z 0) with 0%Q; lra).
    change (inject_Z 0) with 0%Q. lra.
  - apply Qcnot_le_lt in Hneg. qc_to_q.
    rewrite (Qceiling_unique a 0) by (change (inject_Z 0) with 0%Q; lra).
    change (inject_Z 0) with 0%Q. lra.
Qed.

(** X13: for an offset that is not negative, [pathOffsetNormalize] returns
    its fractional part, [offset - floor(offset)], which lies in [[0, 1)];
    an offset already in [[0, 1)] is returned as it is, so normalizing the
    result again changes nothing. *)
Theorem pathOffsetNormalize_nonnegative (offset : Qc) :
  (0 ≤ offset)%Qc →
  pathOffsetNormalize offset = (offset - qz (Qfloor offset))%Qc ∧
  (0 ≤ pathOffsetNormalize offset)%Qc ∧
  (pathOffsetNormalize offset < 1)%Qc ∧
  ((offset < 1)%Qc → pathOffsetNormalize offset = offset) ∧
  pathOffsetNormalize (pathOffsetNormalize offset) = pathOffsetNormalize offset.
Proof.
  intros Hpos.
  assert (Hval : pathOffsetNormalize offset = (offset - qz (Qfloor offset))%Qc).
  { unfold pathOffsetNormalize.
    destruct (decide (offset < 0)%Qc) as [Hneg|_].
    - by apply Qclt_not_le in Hneg.
    - rewrite number_rem_1. unfold Qc_truncate. by rewrite decide_True. }
  pose proof (Qfloor_le offset) as Hf1. pose proof (Qlt_floor offset) as Hf2.
  rewrite inject_Z_plus in Hf2. change (inject_Z 1) with 1%Q in Hf2.
  assert (Hlo : (0 ≤ pathOffsetNormalize offset)%Qc).
  { rewrite Hval. qc_to_q. lra. }
  assert (Hhi : (pathOffsetNormalize offset < 1)%Qc).
  { rewrite Hval. qc_to_q. lra. }
  assert (Hsmall : ∀ a, (0 ≤ a)%Qc → (a < 1)%Qc → pathOffsetNormalize a = a).
  { intros a Ha0 Ha1. unfold pathOffsetNormalize.
    destruct (decide (a < 0)%Qc) as [Hneg|_].
    - by apply Qclt_not_le in Hneg.
    - apply number_rem_1_small; [|done].
      eapply Qclt_le_trans; [|exact Ha0]. done. }
  split_and!; [done..| |].
  - by apply Hsmall.
  - by apply Hsmall.
Qed.


(** ** Ancestors in the item tree *)

Section ancestors.
Context (parents : Parents) (predicate : ref → bool).

Lemma nth_ancestor_S item k :
  nth_ancestor parents item (S k) = nth_ancestor parents item k ≫= (parents !!.).
Proof. done. Qed.

Lemma nth_ancestor_shift item parent k :
  parents !! item = Some parent →
  nth_ancestor parents item (S k) = nth_ancestor parents parent k.
Proof.
  intros Hp. induction k as [|k IH].
  - by rewrite nth_ancestor_S.
  - by rewrite nth_ancestor_S, IH.
Qed.

Lemma nth_ancestor_None item k k' :
  (k ≤ k')%nat → nth_ancestor parents item k = None →
  nth_ancestor parents item k' = None.
Proof.
  intros Hk Hnone. induction Hk as [|k' _ IH]; [done|].
  by rewrite nth_ancestor_S, IH.
Qed.

(** What the loop returns, when it returns an item: the first item on the
    chain from [checking] that satisfies the predicate. *)
Lemma findAncestor_while_sound fuel :
  ∀ prior c a,
    findAncestor_while fuel parents predicate prior (Some c) = Some (Some a) →
    ∃ k, (k < fuel)%nat ∧ nth_ancestor parents c k = Some a ∧
      predicate a = true ∧
      ∀ j, (j < k)%nat →
        ∃ b, nth_ancestor parents c j = Some b ∧ predicate b = false.
Proof.
  induction fuel as [|fuel IH]; intros prior c a; [done|].
  cbn [findAncestor_while]. destruct (decide (Some c = prior)); [done|].
  destruct (predicate c) eqn:Hc.
  - intros [= <-]. exists 0%nat. split_and!; [lia|done|done|lia].
  - destruct (parents !! c) as [c'|] eqn:Hparent.
    + intros Hloop. apply IH in Hloop as (k & Hk & Hnth & Ha & Hnear).
      exists (S k). split_and!; [lia| |done|].
      * by rewrite (nth_ancestor_shift c c').
      * intros [|j] Hj; [by exists c|].
        rewrite (nth_ancestor_shift c c') by done. apply Hnear. lia.
    + destruct fuel; done.
Qed.

(** X18: when [findAncestor] returns an item, that item is a proper
    ancestor of the starting item, it satisfies the predicate, and every
    ancestor nearer to the starting item fails the predicate. *)
Theorem findAncestor_nearest (fuel : nat) (item a : ref) :
  findAncestor fuel parents (Some item) predicate = Some (Some a) →
  ∃ k, (1 ≤ k ≤ fuel)%nat ∧
    nth_ancestor parents item k = Some a ∧
    predicate a = true ∧
    ∀ j, (1 ≤ j < k)%nat →
      ∃ b, nth_ancestor parents item j = Some b ∧ predicate b = false.
Proof.
  unfold findAncestor. destruct (parents !! item) as [c|] eqn:Hparent.
  - intros Hloop.
    apply findAncestor_while_sound in Hloop as (k & Hk & Hnth & Ha & Hnear).
    exists (S k). split_and!; [lia|lia| |done|].
    + by rewrite (nth_ancestor_shift item c).
    + intros [|j] Hj; [lia|].
      rewrite (nth_ancestor_shift item c) by done. apply Hnear. lia.
  - destruct fuel; done.
Qed.

(** On a chain that ends, the loop ends too, and it answers [null] only
    when nothing on the chain satisfies the predicate. *)
Lemma findAncestor_while_complete fuel :
  ∀ prior checking n,
    (n < fuel)%nat →
    Nat.iter n (λ o, o ≫= (parents !!.)) checking = None →
    (prior = None ∨ ∃ p, prior = Some p ∧ parents !! p = checking) →
    ∃ r, findAncestor_while fuel parents predicate prior checking = Some r ∧
      (r = None →
       ∀ k b, Nat.iter k (λ o, o ≫= (parents !!.)) checking = Some b →
              predicate b = false).
Proof.
  induction fuel as [|fuel IH]; intros prior checking n Hn Hend Hprior; [lia|].
  cbn [findAncestor_while]. destruct checking as [c|].
  - assert (Hiter_fix : parents !! c = Some c →
      ∀ m, Nat.iter m (λ o, o ≫= (parents !!.)) (Some c) = Some c).
    { intros Hself. induction m as [|m IHm]; [done|].
      by rewrite Nat.iter_succ, IHm. }
    destruct (decide (Some c = prior)) as [<-|Hne].
    { destruct Hprior as [?|(p & [= <-] & Hself)]; [done|].
      by rewrite (Hiter_fix Hself n) in Hend. }
    destruct (predicate c) eqn:Hc; [by eexists|].
    destruct n as [|n]; [done|].
    rewrite Nat.iter_succ_r in Hend. cbn [mbind option_bind] in Hend.
    destruct (IH (Some c) (parents !! c) n) as (r & Hr & Hnone); [lia|done|eauto|].
    exists r. split; [done|]. intros -> [|k] b.
    + by intros [= <-].
    + rewrite Nat.iter_succ_r. cbn [mbind option_bind]. by apply Hnone.
  - eexists. split; [done|]. intros _ k b Hk. exfalso.
    clear -Hk. revert b Hk. induction k as [|k IHk]; intros b Hk; [done|].
    rewrite Nat.iter_succ in Hk.
    destruct (Nat.iter k _ None) as [b'|] eqn:Hiter; [by eapply IHk|done].
Qed.

(** X19: when the chain of ancestors of an item ends (no ancestor of
    order [n + 1]), [findAncestor] returns within [n + 1] rounds of its
    loop, and what it returns is [null] exactly when no proper ancestor
    satisfies the predicate. *)
Theorem findAncestor_terminates_on_rooted_chain (fuel n : nat) (item : ref) :
  nth_ancestor parents item (S n) = None →
  (n < fuel)%nat →
  ∃ r, findAncestor fuel parents (Some item) predicate = Some r ∧
    (r = None ↔
     ∀ k b, (1 ≤ k)%nat → nth_ancestor parents item k = Some b →
            predicate b = false).
Proof.
  intros Hend Hfuel. unfold findAncestor.
  destruct (findAncestor_while_complete fuel None (parents !! item) n)
    as (r & Hr & Hnone); [done| |by left|].
  { unfold nth_ancestor in Hend. by rewrite Nat.iter_succ_r in Hend. }
  exists r. split; [done|]. split.
  - intros -> [|k] b Hk; [lia|]. unfold nth_ancestor.
    rewrite Nat.iter_succ_r. by apply Hnone.
  - intros Hall. destruct r as [a|]; [|done]. exfalso.
    assert (Hfound : findAncestor fuel parents (Some item) predicate = Some (Some a))
      by done.
    unfold findAncestor in Hfound.
    destruct (parents !! item) as [c|] eqn:Hparent.
    + apply findAncestor_while_sound in Hfound as (k & _ & Hnth & Ha & _).
      rewrite <-(nth_ancestor_shift item c) in Hnth by done.
      rewrite (Hall (S k) a) in Ha; [done|lia|done].
    + destruct fuel; done.
Qed.

(** X20: [findSelfOrAncestor] returns the item itself when the predicate
    holds for it, without looking at the tree; otherwise it returns what
    [findAncestor] returns; and any item it returns satisfies the
    predicate. *)
Theorem findSelfOrAncestor_result (fuel : nat) (item : ref) :
  (predicate item = true →
     findSelfOrAncestor fuel parents item predicate = Some (Some item)) ∧
  (predicate item = false →
     findSelfOrAncestor fuel parents item predicate =
     findAncestor fuel parents (Some item) predicate) ∧
  (∀ a, findSelfOrAncestor fuel parents item predicate = Some (Some a) →
        predicate a = true ∧
        ∃ k, nth_ancestor parents item k = Some a).
Proof.
  unfold findSelfOrAncestor. destruct (predicate item) eqn:Hitem.
  - split_and!; [done|done|]. intros a [= <-]. split; [done|]. by exists 0%nat.
  - split_and!; [done|done|]. intros a Hfound. unfold findAncestor in Hfound.
    destruct (parents !! item) as [c|] eqn:Hparent.
    + apply findAncestor_while_sound in Hfound as (k & _ & Hnth & Ha & _).
      split; [done|]. exists (S k). by rewrite (nth_ancestor_shift item c).
    + destruct fuel; done.
Qed.
End ancestors.


(** ** ParsedFonts *)

Section ParsedFonts_facts.
Context {Font Err Callback : Type}.
Import ParsedFonts.
Implicit Types (s : ParsedFonts.t Font Err Callback) (k : option Callback).

(** X21: once a load of a URL has succeeded with a font, [get] for that
    URL issues no further load: it leaves the fonts as they are and calls
    the given callback, if any, once with that font; and [get] for any
    other URL does what it did before the load. *)
Theorem ParsedFonts_loaded_then_get s (fontUrl : string) k (font : Font)
    (url' : string) k' :
  let s' := (loaded s fontUrl k (inr font)).1 in
  (loaded s fontUrl k (inr font)).2 =
    callOnReady k fontUrl font ++ [FontLoaded fontUrl font] ∧
  get s' fontUrl k' = (s', callOnReady k' fontUrl font) ∧
  (url' ≠ fontUrl →
   (get s' url' k').2 = (get s url' k').2 ∧
   fonts s' !! url' = fonts s !! url').
Proof.
  cbv zeta. unfold loaded, get. cbn [fst snd fonts].
  rewrite lookup_insert_eq. split_and!; [done..|].
  intros Hne. rewrite lookup_insert_ne by done.
  by destruct (fonts s !! url').
Qed.

(** X22: a failed load only writes the error to the console: the fonts
    stay as they were and neither the callback nor the font-loaded
    notification is called; if the URL was not loaded before, the next
    [get] for it issues a load again. *)
Theorem ParsedFonts_failed_load s (fontUrl : string) k (err : Err) k' :
  loaded s fontUrl k (inl err) = (s, [ConsoleError err]) ∧
  (fonts s !! fontUrl = None →
   get (loaded s fontUrl k (inl err)).1 fontUrl k' = (s, [Load fontUrl])).
Proof.
  split; [done|]. intros Hnone. unfold get, loaded. cbn [fst].
  by rewrite Hnone.
Qed.

End ParsedFonts_facts.


(** ** SketchStore *)

Section SketchStore_facts.
Context {Value : Type} (stringify : SketchStore.Sketch Value → string).
Import SketchStore.
Implicit Types (s : SketchStore.t Value) (id : string).

Lemma find_block_None (blocks : list (TextBlock Value)) id :
  find (λ tb, String.eqb (_id tb) id) blocks = None ↔
  existsb (λ tb, String.eqb (_id tb) id) blocks = false.
Proof.
  induction blocks as [|tb blocks IH]; [done|]. cbn [find existsb].
  destruct (String.eqb (_id tb) id); [done|]. by rewrite IH.
Qed.

Lemma filter_blocks_id (blocks : list (TextBlock Value)) id :
  existsb (λ tb, String.eqb (_id tb) id) blocks = false →
  filter (λ tb, String.eqb (_id tb) id = false) blocks = blocks.
Proof.
  induction blocks as [|tb blocks IH]; [done|]. cbn [existsb].
  destruct (String.eqb (_id tb) id) eqn:Htb; [done|]. intros Hrest.
  rewrite filter_cons_True by done. by rewrite IH.
Qed.

Lemma find_filter_same (blocks : list (TextBlock Value)) id :
  find (λ tb, String.eqb (_id tb) id)
       (filter (λ tb, String.eqb (_id tb) id = false) blocks) = None.
Proof.
  induction blocks as [|tb blocks IH]; [done|].
  destruct (String.eqb (_id tb) id) eqn:Htb.
  - rewrite filter_cons_False by (by rewrite Htb). done.
  - rewrite filter_cons_True by done. cbn [find]. by rewrite Htb.
Qed.

Lemma find_filter_other (blocks : list (TextBlock Value)) id id' :
  id' ≠ id →
  find (λ tb, String.eqb (_id tb) id')
       (filter (λ tb, String.eqb (_id tb) id = false) blocks) =
  find (λ tb, String.eqb (_id tb) id') blocks.
Proof.
  intros Hne. induction blocks as [|tb blocks IH]; [done|].
  destruct (String.eqb (_id tb) id) eqn:Htb.
  - rewrite filter_cons_False by (by rewrite Htb). cbn [find].
    apply String.eqb_eq in Htb as ->.
    by rewrite (proj2 (String.eqb_neq id id')).
  - rewrite filter_cons_True by done. cbn [find]. by rewrite IH.
Qed.

(** What the bookkeeping behind a change of content leaves alone. *)
Lemma setUserMessage_frame message s :
  selection (state (setUserMessage message s)) = selection (state s) ∧
  editingItem (state (setUserMessage message s)) = editingItem (state s) ∧
  sketch (state (setUserMessage message s)) = sketch (state s) ∧
  sketchIsDirty (state (setUserMessage message s)) = sketchIsDirty (state s) ∧
  loadingSketch (state (setUserMessage message s)) = loadingSketch (state s) ∧
  localSketch (setUserMessage message s) = localSketch s ∧
  userMessage (state (setUserMessage message s)) = Some message.
Proof.
  unfold setUserMessage.
  destruct (decide (userMessage (state s) ≠ Some message)) as [?|Heq]; [done|].
  split_and!; try done. by apply dec_stable in Heq.
Qed.

Lemma changedSketchContent_frame s :
  selection (state (changedSketchContent s)) = selection (state s) ∧
  editingItem (state (changedSketchContent s)) = editingItem (state s) ∧
  sketch (state (changedSketchContent s)) = sketch (state s) ∧
  sketchIsDirty (state (changedSketchContent s)) = true ∧
  userMessage (state (changedSketchContent s)) = Some "Unsaved".
Proof.
  unfold changedSketchContent, setDefaultUserMessage.
  cbn [state dispatch with_state set_sketchIsDirty sketchIsDirty orb].
  match goal with |- context [setUserMessage ?m ?s0] =>
    destruct (setUserMessage_frame m s0) as (-> & -> & -> & -> & _ & _ & ->)
  end.
  done.
Qed.

Lemma setSelection_frame item force s :
  editingItem (state (setSelection item force s)) = editingItem (state s) ∧
  sketch (state (setSelection item force s)) = sketch (state s) ∧
  sketchIsDirty (state (setSelection item force s)) = sketchIsDirty (state s) ∧
  userMessage (state (setSelection item force s)) = userMessage (state s).
Proof. unfold setSelection. by destruct (negb _ && _). Qed.

Lemma setSelection_default item s :
  setSelection item None s =
  dispatch (selectionChanged item) (with_state (set_selection item) s).
Proof. done. Qed.

Lemma setEditingItem_frame item force s :
  sketch (state (setEditingItem item force s)) = sketch (state s) ∧
  sketchIsDirty (state (setEditingItem item force s)) = sketchIsDirty (state s) ∧
  userMessage (state (setEditingItem item force s)) = userMessage (state s).
Proof.
  unfold setEditingItem. destruct (negb _ && _); [done|].
  cbn [state dispatch with_state set_editingItem sketch sketchIsDirty userMessage].
  destruct item as [item|].
  - rewrite setSelection_default.
    cbn [state dispatch with_state set_selection sketch sketchIsDirty userMessage].
    destruct (editingItem (state s)) as [current|]; [|done].
    destruct (String.eqb (itemType current) "TextBlock"); [|done].
    by destruct (getBlock s (itemId current)).
  - destruct (editingItem (state s)) as [current|]; [|done].
    destruct (String.eqb (itemType current) "TextBlock"); [|done].
    by destruct (getBlock s (itemId current)).
Qed.

Lemma setEditingItem_null s :
  editingItem (state (setEditingItem None None s)) = None ∧
  selection (state (setEditingItem None None s)) = selection (state s).
Proof.
  unfold setEditingItem. cbn [default negb andb].
  destruct (editingItem (state s)) as [current|] eqn:Hcur; [|done].
  cbn [state dispatch with_state set_editingItem editingItem selection].
  destruct (String.eqb (itemType current) "TextBlock"); [|done].
  by destruct (getBlock s (itemId current)).
Qed.

(** X24: removing a text block by id leaves no block with that id, keeps
    the other blocks in their order, and changes the answer of [getBlock]
    for no other id.  If no block had the id the store is left exactly as
    it was and nothing is dispatched; otherwise the removal is dispatched
    first, the sketch becomes dirty with the message "Unsaved", and no item
    is being edited any more. *)
Theorem textBlock_remove_effect id s :
  let s' := textBlock_remove id s in
  getBlock s' id = None ∧
  textBlocks (sketch (state s')) =
    filter (λ tb, _id tb ≠ id) (textBlocks (sketch (state s))) ∧
  (∀ id', id' ≠ id → getBlock s' id' = getBlock s id') ∧
  (getBlock s id = None → s' = s) ∧
  (is_Some (getBlock s id) →
     (∃ rest, events s' = events s ++ textblockRemoved id :: rest) ∧
     sketchIsDirty (state s') = true ∧
     userMessage (state s') = Some "Unsaved" ∧
     editingItem (state s') = None).
Proof.
  cbv zeta.
  assert (Hfilter : ∀ blocks : list (TextBlock Value),
    filter (λ tb, String.eqb (_id tb) id = false) blocks =
    filter (λ tb, _id tb ≠ id) blocks).
  { intros blocks. apply list_filter_iff. intros tb.
    by rewrite String.eqb_neq. }
  unfold textBlock_remove.
  destruct (existsb (λ tb, String.eqb (_id tb) id)
              (textBlocks (sketch (state s)))) eqn:Hdel.
  - match goal with |- context [setEditingItem None None ?s0] =>
      destruct (setEditingItem_frame None None s0) as (Hsk & Hdirty & Hmsg);
      destruct (setEditingItem_null s0) as (Hedit & _);
      remember s0 as s1 eqn:Hs1
    end.
    assert (Hblocks : textBlocks (sketch (state (setEditingItem None None s1))) =
      filter (λ tb, String.eqb (_id tb) id = false) (textBlocks (sketch (state s)))).
    { rewrite Hsk, Hs1.
      match goal with |- context [changedSketchContent ?s0] =>
        destruct (changedSketchContent_frame s0) as (_ & _ & -> & _)
      end. done. }
    split_and!.
    + unfold getBlock. rewrite Hblocks. apply find_filter_same.
    + by rewrite Hblocks, Hfilter.
    + intros id' Hne. unfold getBlock. rewrite Hblocks.
      by apply find_filter_other.
    + intros Hnone. apply find_block_None in Hnone. congruence.
    + intros _. rewrite Hdirty, Hmsg, Hedit, Hs1.
      match goal with |- context [changedSketchContent ?s0] =>
        destruct (changedSketchContent_frame s0) as (_ & _ & _ & -> & ->)
      end.
      split_and!; [|done..].
      unfold setEditingItem, changedSketchContent, setDefaultUserMessage,
        setUserMessage.
      repeat match goal with
             | |- context [if ?b then _ else _] => destruct b
             | |- context [match ?o with Some _ => _ | None => _ end] => destruct o
             end;
        cbn [events dispatch with_state]; rewrite <-?app_assoc; by eexists.
  - rewrite filter_blocks_id by done.
    assert (Hsame : with_state (λ st, set_sketch
        (set_textBlocks (textBlocks (sketch (state s))) (sketch st)) st) s = s).
    { by destruct s as [[? ? [] ? ? ? ? ? ?] ? ?]. }
    rewrite Hsame. split_and!.
    + by apply find_block_None.
    + by rewrite <-Hfilter, filter_blocks_id.
    + done.
    + done.
    + intros [b Hb]. apply find_block_None in Hdel. unfold getBlock in Hb.
      congruence.
Qed.

(** X25: rearranging a text block whose id is unknown changes nothing and
    dispatches nothing.  For a known id the first block with that id gets
    the new position and outline and keeps its other attributes; the ids
    of all blocks and their order stay as they were, blocks found under
    other ids are untouched, the change is dispatched, and the sketch
    becomes dirty. *)
Theorem textBlock_updateArrange_effect id (position outline : option Value) s :
  let s' := textBlock_updateArrange id position outline s in
  (getBlock s id = None → s' = s) ∧
  (∀ block, getBlock s id = Some block →
     getBlock s' id = Some (mkTextBlock id position outline (attr block)) ∧
     _id <$> textBlocks (sketch (state s')) =
       _id <$> textBlocks (sketch (state s)) ∧
     (∀ id', id' ≠ id → getBlock s' id' = getBlock s id') ∧
     (∃ rest, events s' = events s ++
        arrangeChanged (mkTextBlock id position outline (attr block)) :: rest) ∧
     sketchIsDirty (state s') = true ∧
     selection (state s') = selection (state s) ∧
     editingItem (state s') = editingItem (state s)).
Proof.
  cbv zeta. unfold textBlock_updateArrange.
  destruct (getBlock s id) as [block|] eqn:Hblock; [|done].
  split; [done|]. intros ? [= <-].
  assert (Hid : _id block = id).
  { unfold getBlock in Hblock. apply find_some in Hblock as [_ Heq].
    by apply String.eqb_eq in Heq. }
  rewrite Hid.
  match goal with |- context [changedSketchContent ?s0] =>
    destruct (changedSketchContent_frame s0) as (Hsel & Hed & Hsk & Hdirty & _);
    remember s0 as s1 eqn:Hs1
  end.
  assert (Hblocks : textBlocks (sketch (state (changedSketchContent s1))) =
    update_block id (λ _, mkTextBlock id position outline (attr block))
      (textBlocks (sketch (state s)))).
  { by rewrite Hsk, Hs1. }
  assert (Hconst : ∀ tb : TextBlock Value, String.eqb (_id tb) id = true →
    _id (mkTextBlock id position outline (attr block)) = _id tb).
  { intros tb Htb. by apply String.eqb_eq in Htb. }
  split_and!.
  - unfold getBlock. rewrite Hblocks. clear -Hblock.
    unfold getBlock in Hblock.
    induction (textBlocks (sketch (state s))) as [|tb blocks IH]; [done|].
    cbn [update_block find] in *. destruct (String.eqb (_id tb) id) eqn:Htb.
    + cbn [find _id]. by rewrite String.eqb_refl.
    + cbn [find]. rewrite Htb. by apply IH.
  - rewrite Hblocks. clear.
    induction (textBlocks (sketch (state s))) as [|tb blocks IH]; [done|].
    cbn [update_block]. destruct (String.eqb (_id tb) id) eqn:Htb.
    + cbn [fmap list_fmap _id]. apply String.eqb_eq in Htb. by rewrite Htb.
    + cbn [fmap list_fmap] in *. by rewrite IH.
  - intros id' Hne. unfold getBlock. rewrite Hblocks. clear -Hne.
    induction (textBlocks (sketch (state s))) as [|tb blocks IH]; [done|].
    cbn [update_block]. destruct (String.eqb (_id tb) id) eqn:Htb.
    + cbn [find _id]. apply String.eqb_eq in Htb as ->.
      by rewrite (proj2 (String.eqb_neq id id')).
    + cbn [find]. by rewrite IH.
  - rewrite Hs1. unfold changedSketchContent, setDefaultUserMessage,
      setUserMessage.
    repeat match goal with
           | |- context [if ?b then _ else _] => destruct b
           end;
      cbn [events dispatch with_state]; rewrite <-?app_assoc; by eexists.
  - done.
  - by rewrite Hsel, Hs1.
  - by rewrite Hed, Hs1.
Qed.

(** X26: after a change of content the sketch is dirty and the user
    message is "Unsaved"; a further change of content dispatches the
    content change again but no second message, and leaves the state as
    it is. *)
Theorem changedSketchContent_twice s :
  let s1 := changedSketchContent s in
  sketchIsDirty (state s1) = true ∧
  userMessage (state s1) = Some "Unsaved" ∧
  state (changedSketchContent s1) = state s1 ∧
  events (changedSketchContent s1) =
    events s1 ++ [contentChanged (sketch (state s1))].
Proof.
  cbv zeta.
  destruct (changedSketchContent_frame s) as (_ & _ & _ & Hdirty & Hmsg).
  split; [done|]. split; [done|].
  remember (changedSketchContent s) as s1 eqn:Hs1. clear Hs1.
  unfold changedSketchContent, setDefaultUserMessage, setUserMessage.
  cbn [state dispatch with_state set_sketchIsDirty sketchIsDirty orb userMessage].
  rewrite Hmsg. rewrite decide_False by (by intros []).
  cbn [state events]. split; [|done].
  destruct s1 as [[] ? ?]. cbn in *. by subst.
Qed.

Lemma saveSketch_state (now : Value) s :
  let saved := mkSketch (sketch_id (sketch (state s))) (Some now)
                 (textBlocks (sketch (state s))) (sketch_attr (sketch (state s))) in
  sketch (state (saveSketch stringify now s)) = saved ∧
  sketchIsDirty (state (saveSketch stringify now s)) = false ∧
  userMessage (state (saveSketch stringify now s)) = Some "Saved" ∧
  localSketch (saveSketch stringify now s) = Some (stringify saved) ∧
  selection (state (saveSketch stringify now s)) = selection (state s) ∧
  editingItem (state (saveSketch stringify now s)) = editingItem (state s) ∧
  loadingSketch (state (saveSketch stringify now s)) = loadingSketch (state s).
Proof.
  cbv zeta. unfold saveSketch.
  destruct (setUserMessage_frame "Saving" s)
    as (Hsel & Hed & Hsk & _ & Hload & _ & _).
  remember (setUserMessage "Saving" s) as s1 eqn:Hs1. clear Hs1.
  cbn [state dispatch localSketch].
  unfold setDefaultUserMessage.
  cbn [state with_state set_sketchIsDirty set_sketch sketchIsDirty sketch
       savedAt orb].
  rewrite (bool_decide_eq_true_2 (is_Some (Some now))) by (by eexists).
  cbn [negb].
  match goal with |- context [setUserMessage ?m ?s0] =>
    destruct (setUserMessage_frame m s0) as (-> & -> & -> & -> & -> & -> & ->)
  end.
  cbn [state localSketch set_sketchIsDirty set_sketch sketch selection
       editingItem sketchIsDirty loadingSketch with_state].
  rewrite Hsk, Hsel, Hed, Hload. done.
Qed.

(** X27: when the save timer fires on a dirty sketch that has an id and
    at least one text block and is not being loaded, the sketch is stamped
    with the time, written to local storage in serialized form with that
    stamp, and marked clean with the message "Saved", its id and text
    blocks unchanged; when the timer fires again with nothing changed in
    between, nothing happens.  It also does nothing on a sketch that is
    not dirty or has no text block. *)
Theorem saveTimerFired_saves_once (now now' : Value) s :
  (loadingSketch (state s) = false →
   sketchIsDirty (state s) = true →
   sketch_id (sketch (state s)) ≠ "" →
   textBlocks (sketch (state s)) ≠ [] →
   let s' := saveTimerFired stringify now s in
   savedAt (sketch (state s')) = Some now ∧
   sketch_id (sketch (state s')) = sketch_id (sketch (state s)) ∧
   textBlocks (sketch (state s')) = textBlocks (sketch (state s)) ∧
   localSketch s' = Some (stringify (sketch (state s'))) ∧
   sketchIsDirty (state s') = false ∧
   userMessage (state s') = Some "Saved" ∧
   saveTimerFired stringify now' s' = s') ∧
  (sketchIsDirty (state s) = false ∨ textBlocks (sketch (state s)) = [] →
   saveTimerFired stringify now s = s).
Proof.
  split.
  - intros Hload Hdirty Hid Hblocks. cbv zeta.
    assert (Hfire : saveTimerFired stringify now s = saveSketch stringify now s).
    { unfold saveTimerFired. rewrite Hload, Hdirty.
      rewrite (proj2 (String.eqb_neq _ _) Hid).
      destruct (textBlocks (sketch (state s))); done. }
    rewrite Hfire.
    destruct (saveSketch_state now s) as (Hsk & Hd & Hmsg & Hls & _).
    rewrite Hsk, Hd, Hmsg, Hls. split_and!; try done.
    unfold saveTimerFired. rewrite Hd. by rewrite andb_false_r.
  - intros [Hclean|Hempty]; unfold saveTimerFired.
    + rewrite Hclean. by rewrite andb_false_r.
    + rewrite Hempty. by rewrite !andb_false_r.
Qed.

(** X28: uploading an image records it and leaves transparency on;
    removing the image clears it and leaves transparency not on.  The
    transparency notification goes out only when transparency changes: an
    upload while transparency is on, or a removal while it is not on,
    dispatches the image event alone. *)
Theorem image_upload_and_transparency (src : string) s :
  uploadedImage (state (imageUploaded src s)) = Some src ∧
  transparency (state (imageUploaded src s)) = Some true ∧
  uploadedImage (state (removeUploadedImage s)) = None ∧
  transparency (state (removeUploadedImage s)) ≠ Some true ∧
  transparency (state (removeUploadedImage (imageUploaded src s))) = Some false ∧
  (transparency (state s) = Some true →
   events (imageUploaded src s) = events s ++ [imageUploadedEvent (Some src)]) ∧
  (transparency (state s) ≠ Some true →
   events (imageUploaded src s) =
     events s ++ [imageUploadedEvent (Some src); transparencyNext (Some true)] ∧
   events (removeUploadedImage s) = events s ++ [imageUploadedEvent None]).
Proof.
  unfold imageUploaded, removeUploadedImage, setTransparency.
  cbn [state dispatch with_state set_uploadedImage transparency].
  destruct (transparency (state s)) as [[|]|] eqn:Ht;
    repeat (case_bool_decide; try done);
    cbn [negb state dispatch with_state set_uploadedImage set_transparency
         transparency uploadedImage events];
    repeat (case_bool_decide; try done);
    cbn [negb state dispatch with_state set_uploadedImage set_transparency
         transparency uploadedImage events];
    rewrite <-?app_assoc; split_and!; try done; congruence.
Qed.

Lemma sketch_setSelection_editing data s :
  editing_is_selected s → editing_is_selected (sketch_setSelection data s).
Proof.
  unfold editing_is_selected, sketch_setSelection, setEditingItem, setSelection.
  cbn [default negb andb]. intros Hinv.
  destruct data as [item|], (editingItem (state s)) as [current|] eqn:Hcur;
    simpl; rewrite ?Hcur.
  - destruct (String.eqb (itemId current) (itemId item)) eqn:Hsame.
    + simpl. rewrite Hcur. destruct Hinv as (selected & _ & _).
      exists item. split; [done|]. symmetry. by apply String.eqb_eq.
    + destruct (String.eqb (itemType current) "TextBlock");
        [destruct (getBlock _ _)|]; simpl; by exists item.
  - by exists item.
  - destruct (String.eqb (itemType current) "TextBlock");
      [destruct (getBlock _ _)|]; done.
  - simpl. by rewrite Hcur.
Qed.

Lemma textBlock_remove_editing id s :
  textBlock_remove id s = s ∨
  editingItem (state (textBlock_remove id s)) = None.
Proof.
  unfold textBlock_remove.
  destruct (existsb (λ tb, String.eqb (_id tb) id)
              (textBlocks (sketch (state s)))) eqn:Hdel.
  - right. by match goal with |- context [setEditingItem None None ?s0] =>
      destruct (setEditingItem_null s0) as [-> _] end.
  - left. rewrite filter_blocks_id by done.
    by destruct s as [[? ? [] ? ? ? ? ? ?] ? ?].
Qed.

Lemma textBlock_updateArrange_frame id (position outline : option Value) s :
  selection (state (textBlock_updateArrange id position outline s)) =
    selection (state s) ∧
  editingItem (state (textBlock_updateArrange id position outline s)) =
    editingItem (state s).
Proof.
  unfold textBlock_updateArrange.
  destruct (getBlock s id) as [block|]; [|done].
  by match goal with |- context [changedSketchContent ?s0] =>
    destruct (changedSketchContent_frame s0) as (-> & -> & _) end.
Qed.

Lemma editing_is_selected_same s s' :
  selection (state s') = selection (state s) →
  editingItem (state s') = editingItem (state s) →
  editing_is_selected s → editing_is_selected s'.
Proof. unfold editing_is_selected. by intros -> ->. Qed.

Lemma editing_is_selected_none s :
  editingItem (state s) = None → editing_is_selected s.
Proof. unfold editing_is_selected. by intros ->. Qed.

(** X29: the item being edited is always the selected item: if the store
    holds an editing item only together with a selection of the same item
    id, then so it does after every input modelled here (selection,
    export, help, removal and rearrangement of text blocks, image upload
    and removal, the save timer). *)
Theorem editing_item_is_selected (a : Input) s :
  editing_is_selected s → editing_is_selected (handle stringify a s).
Proof.
  intros Hinv. destruct a as [data|data|data| |id|id position outline|src| |now];
    cbn [handle].
  - by apply sketch_setSelection_editing.
  - unfold editor_exportPNG. apply editing_is_selected_none.
    cbn [state dispatch editingItem].
    by destruct (setEditingItem_null (setSelection None None s)) as [-> _].
  - unfold editor_exportSVG. apply editing_is_selected_none.
    cbn [state dispatch editingItem].
    by destruct (setEditingItem_null (setSelection None None s)) as [-> _].
  - by apply (editing_is_selected_same s).
  - destruct (textBlock_remove_editing id s) as [->|Hnone]; [done|].
    by apply editing_is_selected_none.
  - destruct (textBlock_updateArrange_frame id position outline s) as [Hsel Hed].
    by apply (editing_is_selected_same s).
  - apply (editing_is_selected_same s); [| |done];
      unfold imageUploaded, setTransparency; by case_bool_decide.
  - apply (editing_is_selected_same s); [| |done];
      unfold removeUploadedImage, setTransparency; by case_bool_decide.
  - unfold saveTimerFired.
    destruct (negb _ && _ && _ && _); [|done].
    destruct (saveSketch_state now s) as (_ & _ & _ & _ & Hsel & Hed & _).
    by apply (editing_is_selected_same s).
Qed.
End SketchStore_facts.

(** ** The further theorems at sample inputs *)

#[export] Instance Qc_monotone : MonotoneNumber Qc.
Proof.
  split. intros a b Hb. cbn [num_le num_add num_of_Z Qc_number] in *.
  unfold Qcle in *. rewrite this_plus.
  change (this (qz 0)) with (Qred 0) in Hb. rewrite Qred_correct in Hb. lra.
Qed.

Lemma sampler_nonpositive_count_witness :
  (0 ≤ 0)%Z ∧
  PaperHelpers.tracePathAsPoints rect_path 0 = [] ∧
  closed (PaperHelpers.tracePath rect_path 0) = true.
Proof.
  assert (Hn : (0 ≤ 0)%Z) by lia.
  destruct (sampler_nonpositive_count_is_empty rect_path 0 Hn)
    as (Hpoints & _ & _ & Hclosed & _).
  split_and!; [exact Hn|exact Hpoints|exact Hclosed].
Defined.

Lemma sampler_queries_nondecreasing_witness :
  let len := curve_length rect_path in
  (qz 0 ≤ len)%Qc ∧
  (Math_min (offset_after (len / qz 4)%Qc 1 (qz 0)) len ≤
   Math_min (offset_after (len / qz 4)%Qc 2 (qz 0)) len)%Qc.
Proof.
  cbv zeta.
  assert (Hn : (1 ≤ 4)%Z) by lia.
  assert (Hlen : (num_of_Z 0 ≤ curve_length rect_path)%num) by (by vm_compute).
  destruct (sampler_queries_nondecreasing rect_path 4 1 _ _ Hlen Hn
              (sampler_queries_lookup (curve_length rect_path) 4 1 eq_refl)
              (sampler_queries_lookup (curve_length rect_path) 4 2 eq_refl))
    as (_ & _ & Hle).
  split; [exact Hlen|exact Hle].
Defined.

Lemma dot_path_length : curve_length dot_path = (num_of_Z 0 : Qc).
Proof. by apply Qc_is_canon. Qed.

Lemma sampler_zero_length_path_witness :
  PaperHelpers.tracePathAsPoints dot_path 3 =
  replicate 3 (getPointAt dot_path (qz 0)).
Proof.
  apply (sampler_zero_length_path dot_path 3 dot_path_length). lia.
Defined.

Lemma upper10_start :
  getPointAt upper10 (num_of_Z 0 * curve_length upper10)%num = Some (pt 0 0).
Proof. vm_compute. do 2 f_equal; by apply Qc_is_canon. Qed.

Lemma upper20_start :
  getPointAt upper20 (num_of_Z 0 * curve_length upper20)%num = Some (pt 0 0).
Proof. vm_compute. do 2 f_equal; by apply Qc_is_canon. Qed.

Lemma projection_collapsed_band_witness :
  PaperHelpers.dualBoundsPathProjection upper10 upper20
    (mkPoint (qz 0) (Q2Qc (1 # 3))) = Some (pt 0 0).
Proof.
  apply (projection_collapsed_band upper10 upper20 (num_of_Z 0) (pt 0 0)
           upper10_start upper20_start).
Defined.

Lemma warp0_watched :
  is_Some (DualBoundsPathWarp.boundsWatch store0 24 warp0).
Proof. vm_compute. by eexists. Qed.

Lemma boundsWatch_twice_witness :
  ∃ s1 s2,
    DualBoundsPathWarp.boundsWatch store0 24 warp0 = Some s1 ∧
    DualBoundsPathWarp.boundsWatch store0 24 s1 = Some s2 ∧
    DualBoundsPathWarp._outline s2 = DualBoundsPathWarp._outline s1 ∧
    DualBoundsPathWarp._warped s2 = DualBoundsPathWarp._warped s1.
Proof.
  destruct (DualBoundsPathWarp.boundsWatch store0 24 warp0) as [s1|] eqn:Hfirst.
  - assert (Hbits : Z.land GEOMETRY ATTRIBUTE = 0%Z) by reflexivity.
    assert (Hflags : Z.land 24 SEGMENTS ≠ 0%Z) by (vm_compute; discriminate).
    destruct (boundsWatch_twice_same_geometry store0 24 warp0 s1
                Hbits Hflags Hfirst) as (s2 & Hsecond & Ho & Hw & _).
    exists s1, s2. split_and!; [reflexivity|exact Hsecond|exact Ho|exact Hw].
  - destruct warp0_watched as [s1 Hs1]. rewrite Hfirst in Hs1. discriminate Hs1.
Defined.

Lemma cfg1_built : is_Some cfg1.
Proof. vm_compute. by eexists. Qed.

Lemma new_default_outline_witness :
  ∃ σ' s src', cfg1 = Some (σ', s) ∧ σ' !! 1%positive = Some src' ∧
    point <$> segments (DualBoundsPathWarp._outline s) =
    corners (CompoundPath_bounds src').
Proof.
  destruct cfg1 as [[σ' s]|] eqn:Hnew.
  - assert (Hanchor : ∀ p : Point Qc, point (Segment_read (Some p)) = p)
      by reflexivity.
    unfold cfg1 in Hnew.
    destruct (new_default_outline_is_bounding_box store0 σ' 1%positive None s
                Hanchor Hnew) as (src' & Hsrc & _ & _ & Houtline).
    exists σ', s, src'. split_and!; [reflexivity|exact Hsrc|exact Houtline].
  - destruct cfg1_built as [cfg Hcfg]. rewrite Hnew in Hcfg. discriminate Hcfg.
Defined.

Lemma boundaries_shown_together_witness :
  ∃ σ s, cfg0 = Some (σ, s) ∧
    visible (DualBoundsPathWarp._upper s) =
    visible (DualBoundsPathWarp._lower s).
Proof.
  destruct cfg0 as [[σ s]|] eqn:Hnew.
  - assert (Hreach : DualBoundsPathWarp.reachable (σ, s)).
    { unfold cfg0 in Hnew. eapply DualBoundsPathWarp.reachable_new, Hnew. }
    destruct (boundaries_shown_together σ s 128 Hreach) as (Hboth & _).
    exists σ, s. split; [reflexivity|exact Hboth].
  - destruct cfg0_built as [cfg Hcfg]. rewrite Hnew in Hcfg. discriminate Hcfg.
Defined.

Lemma derived_items_carry_style_witness :
  ∃ σ s, cfg0 = Some (σ, s) ∧
    cp_style (DualBoundsPathWarp._warped s) =
    Some (DualBoundsPathWarp.customStyle s).
Proof.
  destruct cfg0 as [[σ s]|] eqn:Hnew.
  - assert (Hreach : DualBoundsPathWarp.reachable (σ, s)).
    { unfold cfg0 in Hnew. eapply DualBoundsPathWarp.reachable_new, Hnew. }
    destruct (derived_items_carry_style σ s Hreach) as (Hstyle & _).
    exists σ, s. split; [reflexivity|exact Hstyle].
  - destruct cfg0_built as [cfg Hcfg]. rewrite Hnew in Hcfg. discriminate Hcfg.
Defined.

(** *** Unit offsets *)

Lemma pathOffsetNormalize_nonnegative_witness :
  (0 ≤ Q2Qc (5 # 2))%Qc ∧
  pathOffsetNormalize (Q2Qc (5 # 2)) =
    (Q2Qc (5 # 2) - qz (Qfloor (Q2Qc (5 # 2))))%Qc ∧
  (pathOffsetNormalize (Q2Qc (5 # 2)) < 1)%Qc.
Proof.
  assert (Hpos : (0 ≤ Q2Qc (5 # 2))%Qc) by (by vm_compute).
  destruct (pathOffsetNormalize_nonnegative (Q2Qc (5 # 2)) Hpos)
    as (Hval & _ & Hlt & _).
  split_and!; [exact Hpos|exact Hval|exact Hlt].
Defined.

(** *** The item tree *)

Lemma findAncestor_nearest_witness :
  findAncestor 5 tree0 (Some 3%positive) is_root = Some (Some 1%positive) ∧
  ∃ k, nth_ancestor tree0 3%positive k = Some 1%positive ∧
    ∀ j, (1 ≤ j < k)%nat →
      ∃ b, nth_ancestor tree0 3%positive j = Some b ∧ is_root b = false.
Proof.
  assert (Hfound : findAncestor 5 tree0 (Some 3%positive) is_root =
                   Some (Some 1%positive)) by reflexivity.
  destruct (findAncestor_nearest tree0 is_root 5 3%positive 1%positive Hfound)
    as (k & _ & Hk & _ & Hnear).
  split; [exact Hfound|]. exists k. split; [exact Hk|exact Hnear].
Defined.

Lemma findAncestor_terminates_witness :
  nth_ancestor tree0 3%positive 3 = None ∧
  ∃ r, findAncestor 3 tree0 (Some 3%positive) is_root = Some r.
Proof.
  assert (Hend : nth_ancestor tree0 3%positive 3 = None) by reflexivity.
  assert (Hfuel : (2 < 3)%nat) by lia.
  destruct (findAncestor_terminates_on_rooted_chain tree0 is_root 3 2
              3%positive Hend Hfuel) as (r & Hr & _).
  split; [exact Hend|]. exists r. exact Hr.
Defined.

(** *** Fonts and the editor *)

Lemma editing_item_is_selected_witness :
  SketchStore.editing_is_selected editor0 ∧
  SketchStore.editing_is_selected
    (SketchStore.handle stringify0 (SketchStore.RemoveTextBlock "b1") editor0).
Proof.
  assert (Hinv : SketchStore.editing_is_selected editor0).
  { exists block_ref. split; reflexivity. }
  split; [exact Hinv|].
  exact (editing_item_is_selected stringify0 (SketchStore.RemoveTextBlock "b1")
           editor0 Hinv).
Defined.

(** *** The composite with a lower boundary without segments *)


